(** * PixelMilk maintenance scripts: batch reporter and audio-list synchroniser

    A shallow embedding of [scripts/lyria-batches.py] and
    [scripts/sync-audio.py], with the properties of their observable
    behaviour.

    Conventions of the embedding:
    - a Python [str] is the [string] of its UTF-8 bytes; comparison of
      strings is the lexicographic order ([String.ltb]), which on UTF-8
      is the order of the code points;
    - a Python [int] is a [Z]; [len] is [Z.of_nat (length _)];
    - a [dict] is an association list in insertion order, with unique keys;
    - [print] appends one entry (the text before the line terminator) to
      the standard output, kept as a list of strings;
    - an operation that may raise returns a [result];
    - the synchroniser is modelled on a POSIX system ([os.linesep] is a
      line feed, [glob] is case sensitive), in two layers over one script
      body: the text layer [sync], whose state holds the text that
      [read()] returns and that [write()] receives, and the file layer
      [sync_on_disk], whose state holds the bytes of the file, with the
      UTF-8 decoding, the universal newlines and the truncation of
      [open(_, 'w')];
    - library calls follow CPython: [Path.glob], [Path.stem], [sorted],
      [re.sub] with its replacement templates (an unknown escape of a
      letter is an error, as since Python 3.7; a group name is read as
      since Python 3.12). *)

From Stdlib Require Import String Ascii List ZArith Lia Bool Arith.
From Stdlib Require Import Sorted Permutation QArith Qround DecimalString.
From Stdlib Require OrderedTypeEx.
Import ListNotations.

Local Open Scope list_scope.
Local Open Scope Z_scope.

Infix "+++" := String.append (right associativity, at level 60).

(** ** The Python fragment the two scripts use *)

Module Py.

Inductive exn : Type :=
| KeyError (key : string)
| ReError (msg : string)
| UnicodeDecodeError
| UnicodeEncodeError.

Inductive result (A : Type) : Type :=
| Ok (a : A)
| Raise (e : exn).
Arguments Ok {A} a.
Arguments Raise {A} e.

Definition len {A : Type} (l : list A) : Z := Z.of_nat (List.length l).

(** [str(n)] for an int. *)
Definition str (n : Z) : string := NilZero.string_of_int (Z.to_int n).

Definition nl : string := String "010"%char EmptyString.

(** ["c" * n] *)
Fixpoint repeat_str (c : string) (n : nat) : string :=
  match n with
  | O => EmptyString
  | S n' => c +++ repeat_str c n'
  end.

(** [range(start, stop, step)] for a positive step: CPython computes the
    number of elements as [(stop - start + step - 1) // step] when
    [start < stop], and 0 otherwise. *)
Definition range (start stop step : Z) : list Z :=
  let n := if start <? stop then (stop - start + step - 1) / step else 0 in
  map (fun k => start + Z.of_nat k * step) (seq 0 (Z.to_nat n)).

(** [l[i:j]]: each bound is taken from the end when negative and then
    clamped to [0, len l]. *)
Definition clamp_index {A : Type} (l : list A) (i : Z) : nat :=
  Z.to_nat (if i <? 0 then Z.max (i + len l) 0 else Z.min i (len l)).

Definition slice {A : Type} (l : list A) (i j : Z) : list A :=
  let lo := clamp_index l i in
  let hi := clamp_index l j in
  firstn (hi - lo) (skipn lo l).

(** [sorted(l, key=k)]: the keys are computed first, then the decorated
    list is sorted.  Python's sort is stable and compares keys with [<]
    only; the stable sort is written here as an insertion sort, which
    yields the same list. *)
Section Sorting.
Context {A K : Type} (lt : K -> K -> bool).

Fixpoint insert (x : K * A) (l : list (K * A)) : list (K * A) :=
  match l with
  | [] => [x]
  | y :: l' => if lt (fst y) (fst x) then y :: insert x l' else x :: y :: l'
  end.

Definition sort_decorated (l : list (K * A)) : list (K * A) :=
  fold_right insert [] l.

Definition sorted (key : A -> K) (l : list A) : list A :=
  map snd (sort_decorated (map (fun a => (key a, a)) l)).

(** The key function may raise: the first exception wins and no list
    is produced. *)
Fixpoint decorate (key : A -> result K) (l : list A) : result (list (K * A)) :=
  match l with
  | [] => Ok []
  | a :: l' =>
      match key a with
      | Raise e => Raise e
      | Ok k =>
          match decorate key l' with
          | Raise e => Raise e
          | Ok d => Ok ((k, a) :: d)
          end
      end
  end.

Definition sorted_r (key : A -> result K) (l : list A) : result (list A) :=
  match decorate key l with
  | Raise e => Raise e
  | Ok d => Ok (map snd (sort_decorated d))
  end.
End Sorting.

(** Insertion-ordered dictionaries with string keys. *)
Section Dict.
Context {V : Type}.

Definition dict : Type := list (string * V).

Definition items (d : dict) : list (string * V) := d.
Definition keys (d : dict) : list string := map fst d.

Fixpoint dict_get (d : dict) (k : string) : option V :=
  match d with
  | [] => None
  | (k', v) :: d' => if String.eqb k' k then Some v else dict_get d' k
  end.

(** [k in d] *)
Definition contains (d : dict) (k : string) : bool :=
  match dict_get d k with Some _ => true | None => false end.

(** [d[k]] *)
Definition getitem (d : dict) (k : string) : result V :=
  match dict_get d k with
  | Some v => Ok v
  | None => Raise (KeyError k)
  end.

(** [d.setdefault(k, dflt)]: a new key goes last. *)
Definition setdefault (d : dict) (k : string) (dflt : V) : dict :=
  if contains d k then d else d ++ [(k, dflt)].

(** Mutation of the value stored under [k] (the object returned by
    [setdefault] is the stored one, so changing it changes the
    dictionary's entry). *)
Fixpoint update (d : dict) (k : string) (f : V -> V) : dict :=
  match d with
  | [] => []
  | (k', v) :: d' =>
      if String.eqb k' k then (k', f v) :: d' else (k', v) :: update d' k f
  end.
End Dict.
Arguments dict V : clear implicits.

(** Statements of a script: they run in a state [St], print, and may
    raise; the state and the output reached at an exception are kept. *)
Section Statements.
Context {St : Type}.

Definition M (A : Type) : Type := St -> St * list string * result A.

Definition ret {A : Type} (a : A) : M A :=
  fun st => (st, [], Ok a).

Definition bind {A B : Type} (m : M A) (f : A -> M B) : M B :=
  fun st =>
    match m st with
    | (st', out, Raise e) => (st', out, Raise e)
    | (st', out, Ok a) =>
        match f a st' with
        | (st'', out', r) => (st'', out ++ out', r)
        end
    end.

Definition print (s : string) : M unit :=
  fun st => (st, [s], Ok tt).

Definition get_state : M St :=
  fun st => (st, [], Ok st).

Definition put_state (st' : St) : M unit :=
  fun _ => (st', [], Ok tt).

Definition lift {A : Type} (r : result A) : M A :=
  fun st => (st, [], r).

Fixpoint for_each {A : Type} (l : list A) (body : A -> M unit) : M unit :=
  match l with
  | [] => ret tt
  | a :: l' => bind (body a) (fun _ => for_each l' body)
  end.
End Statements.
Arguments M St A : clear implicits.

Declare Scope py_scope.
Delimit Scope py_scope with py.
Notation "x <- m ;; k" := (bind m (fun x => k))
  (at level 61, m at next level, right associativity) : py_scope.
Notation "m ;; k" := (bind m (fun _ => k))
  (at level 61, right associativity) : py_scope.

End Py.

Import Py.
Local Open Scope py_scope.


(** ** scripts/lyria-batches.py *)

Module LyriaBatches.

(** A track record of [soundtrack.json].  Every field is optional; a
    present [bpm] or [energy] is kept as the text Python displays for it. *)
Record info : Type := {
  playlist : option string;
  audioPrompt : option string;
  bpm : option string;
  energy : option string
}.

(** [info.get(field, dflt)] *)
Definition get (field : option string) (dflt : string) : string :=
  match field with
  | Some v => v
  | None => dflt
  end.

Definition track : Type := string * info.
Definition grouping : Type := dict (list track).

(** One turn of the loop [for pid, info in data.items()]. *)
Definition group_step (playlists : grouping) (item : track) : grouping :=
  let (pid, info) := item in
  let pl := get (playlist info) "Uncategorized" in
  update (setdefault playlists pl []) pl (fun tracks => tracks ++ [(pid, info)]).

(** The module-level [playlists], built from the loaded [data]. *)
Definition playlists (data : dict info) : grouping :=
  fold_left group_step (items data) [].

Definition dquote : string := String "034"%char EmptyString.

Definition summary_key (x : string * list track) : Z := - len (snd x).

Definition print_playlist_summary : M grouping unit :=
  print (repeat_str "=" 60) ;;
  print "AVAILABLE PLAYLISTS" ;;
  print (repeat_str "=" 60) ;;
  playlists <- get_state ;;
  for_each (sorted Z.ltb summary_key (items playlists)) (fun x =>
    let (pl, tracks) := x in
    let batches := (len tracks + 5) / 6 in
    print ("  " +++ pl +++ ": " +++ str (len tracks) +++ " tracks ("
           +++ str batches +++ " batches)")) ;;
  print EmptyString ;;
  print ("Usage: python scripts/lyria-batches.py " +++ dquote
         +++ "Playlist Name" +++ dquote).

Definition print_batch (playlist_name : string) : M grouping unit :=
  playlists <- get_state ;;
  if negb (contains playlists playlist_name) then
    print ("Playlist '" +++ playlist_name +++ "' not found.") ;;
    print_playlist_summary
  else
    tracks <- lift (getitem playlists playlist_name) ;;
    print (nl +++ repeat_str "=" 60) ;;
    print ("LYRIA BATCHES: " +++ playlist_name) ;;
    print (repeat_str "=" 60) ;;
    for_each (range 0 (len tracks) 6) (fun i =>
      let batch := slice tracks i (i + 6) in
      let batch_num := i / 6 + 1 in
      print (nl +++ "--- BATCH " +++ str batch_num +++ " ("
             +++ str (len batch) +++ " tracks) ---") ;;
      print EmptyString ;;
      print "Filenames (for export):" ;;
      for_each batch (fun t => let (pid, _) := t in
        print ("  " +++ pid +++ ".wav")) ;;
      print EmptyString ;;
      print "Audio prompts for Gemini/Lyria:" ;;
      print (repeat_str "-" 40) ;;
      for_each batch (fun t => let (pid, info) := t in
        let prompt := get (audioPrompt info) "No prompt" in
        let bpm := get (bpm info) "?" in
        let energy := get (energy info) "?" in
        print (nl +++ "[" +++ pid +++ "] (" +++ bpm +++ " BPM, "
               +++ energy +++ " energy)") ;;
        print ("  " +++ prompt)) ;;
      print EmptyString ;;
      print (repeat_str "=" 60)).

(** The key of [print_all_batches]: [-len(playlists[x])]. *)
Definition all_batches_key (playlists : grouping) (x : string) : result Z :=
  match getitem playlists x with
  | Ok tracks => Ok (- len tracks)
  | Raise e => Raise e
  end.

Definition print_all_batches : M grouping unit :=
  playlists <- get_state ;;
  order <- lift (sorted_r Z.ltb (all_batches_key playlists) (keys playlists)) ;;
  for_each order print_batch.

(** [main] with [argv = sys.argv[1:]]. *)
Definition main (argv : list string) : M grouping unit :=
  match argv with
  | [] => print_playlist_summary
  | a :: _ =>
      if String.eqb a "--all" then print_all_batches
      else print_batch (String.concat " " argv)
  end.

End LyriaBatches.


(** ** scripts/sync-audio.py *)

Module SyncAudio.

(** *** String primitives *)

(** [s.endswith(suffix)] *)
Fixpoint endswith (s suffix : string) : bool :=
  String.eqb s suffix ||
  match s with
  | EmptyString => false
  | String _ s' => endswith s' suffix
  end.

(** [s.rfind(c)]: the index of the last [c] in [s], or -1. *)
Fixpoint rfind (s : string) (c : ascii) : Z :=
  match s with
  | EmptyString => -1
  | String a s' =>
      let r := rfind s' c in
      if 0 <=? r then r + 1 else if Ascii.eqb a c then 0 else -1
  end.

(** [s] without the prefix [p], when it has it. *)
Fixpoint strip_prefix (p s : string) : option string :=
  match p, s with
  | EmptyString, _ => Some s
  | String a p', String b s' => if Ascii.eqb a b then strip_prefix p' s' else None
  | String _ _, EmptyString => None
  end.

(** The longest prefix of [s] without the character [c], and the rest. *)
Fixpoint span_not (c : ascii) (s : string) : string * string :=
  match s with
  | EmptyString => (EmptyString, EmptyString)
  | String a s' =>
      if Ascii.eqb a c then (EmptyString, s)
      else let (n, r) := span_not c s' in (String a n, r)
  end.

(** *** The directory scan *)

(** [Path.glob("*.wav")] over the entries of the directory: the entries
    whose name ends in [.wav] (a leading dot is not special for pathlib),
    in the order of the listing. *)
Definition glob_wav (entries : list string) : list string :=
  filter (fun name => endswith name ".wav") entries.

(** [Path.stem]: the name without its last suffix; a dot in first or last
    position starts no suffix. *)
Definition stem (name : string) : string :=
  let i := rfind name "." in
  if (0 <? i) && (i <? Z.of_nat (String.length name) - 1)
  then substring 0 (Z.to_nat i) name
  else name.

(** [sorted([f.stem for f in audio_dir.glob("*.wav")])] *)
Definition audio_files (entries : list string) : list string :=
  sorted String.ltb (fun f => f) (map stem (glob_wav entries)).

(** *** The generated block *)

Definition open_marker : string := "const AVAILABLE_AUDIO = new Set([" +++ nl.
Definition close_marker : string := "]);".

Definition name_entry (f : string) : string := "  '" +++ f +++ "'," +++ nl.

Definition set_content (audio_files : list string) : string :=
  fold_left (fun acc f => acc +++ name_entry f) audio_files open_marker
  +++ close_marker.

(** *** The block pattern *)

Inductive regex : Type :=
| Lit (s : string)
| NotChar (c : ascii)
| Seq (r1 r2 : regex)
| Star (r : regex)
| Plus (r : regex).

(** [const AVAILABLE_AUDIO = new Set\(\[\n(?:  '[^']+',\n)*\]\);] *)
Definition pattern : regex :=
  Seq (Lit open_marker)
      (Seq (Star (Seq (Lit "  '") (Seq (Plus (NotChar "'")) (Lit ("'," +++ nl)))))
           (Lit close_marker)).

(** The strings a pattern matches. *)
Inductive matches : regex -> string -> Prop :=
| m_lit s : matches (Lit s) s
| m_not c a : a <> c -> matches (NotChar c) (String a EmptyString)
| m_seq r1 r2 s1 s2 : matches r1 s1 -> matches r2 s2 -> matches (Seq r1 r2) (s1 +++ s2)
| m_star_nil r : matches (Star r) EmptyString
| m_star_cons r s1 s2 :
    matches r s1 -> matches (Star r) s2 -> matches (Star r) (s1 +++ s2)
| m_plus_one r s : matches r s -> matches (Plus r) s
| m_plus_cons r s1 s2 :
    matches r s1 -> matches (Plus r) s2 -> matches (Plus r) (s1 +++ s2).

(** The match of the pattern at the start of a string, as the regex
    engine finds it: the opening marker, as many name entries as follow,
    the closing marker.  An entry is two spaces, a quote, the characters
    up to the next quote (at least one), a quote, a comma and a line
    feed.  Result: the matched text and what follows it. *)
Definition name_line (s : string) : option (string * string) :=
  match strip_prefix "  '" s with
  | None => None
  | Some r =>
      match span_not "'" r with
      | (EmptyString, _) => None
      | (name, r') =>
          match strip_prefix ("'," +++ nl) r' with
          | None => None
          | Some rest => Some (name_entry name, rest)
          end
      end
  end.

Fixpoint name_lines (fuel : nat) (s : string) : string * string :=
  match fuel with
  | O => (EmptyString, s)
  | S fuel' =>
      match name_line s with
      | None => (EmptyString, s)
      | Some (l, r) => let (ls, r') := name_lines fuel' r in (l +++ ls, r')
      end
  end.

Definition block_match (s : string) : option (string * string) :=
  match strip_prefix open_marker s with
  | None => None
  | Some r =>
      let (ls, r') := name_lines (String.length r) r in
      match strip_prefix close_marker r' with
      | None => None
      | Some rest => Some (open_marker +++ ls +++ close_marker, rest)
      end
  end.

(** *** The replacement template

    [re.sub] treats a replacement string with a backslash as a template:
    it is compiled before the search starts, and compiling can raise.
    The pattern has no capturing group, so the only group a template can
    name is group 0, the whole match. *)

Inductive piece : Type :=
| Literal (s : string)
| WholeMatch.

Definition is_digit (c : ascii) : bool :=
  (48 <=? nat_of_ascii c)%nat && (nat_of_ascii c <=? 57)%nat.
Definition is_octdigit (c : ascii) : bool :=
  (48 <=? nat_of_ascii c)%nat && (nat_of_ascii c <=? 55)%nat.
Definition is_ascii_letter (c : ascii) : bool :=
  let n := nat_of_ascii c in
  ((65 <=? n)%nat && (n <=? 90)%nat) || ((97 <=? n)%nat && (n <=? 122)%nat).
Definition digit_val (c : ascii) : nat := (nat_of_ascii c - 48)%nat.

(** [chr(n)] for [n < 256], in UTF-8. *)
Definition chr (n : nat) : string :=
  if (n <? 128)%nat then String (ascii_of_nat n) EmptyString
  else String (ascii_of_nat (192 + n / 64))
         (String (ascii_of_nat (128 + n mod 64)) EmptyString).

(** The escapes of one letter that stand for a character. *)
Definition escape_char (c : ascii) : option nat :=
  if Ascii.eqb c "a" then Some 7%nat
  else if Ascii.eqb c "b" then Some 8%nat
  else if Ascii.eqb c "f" then Some 12%nat
  else if Ascii.eqb c "n" then Some 10%nat
  else if Ascii.eqb c "r" then Some 13%nat
  else if Ascii.eqb c "t" then Some 9%nat
  else if Ascii.eqb c "v" then Some 11%nat
  else if Ascii.eqb c "\" then Some 92%nat
  else None.

Fixpoint all_zero (s : string) : bool :=
  match s with
  | EmptyString => true
  | String c s' => Ascii.eqb c "0" && all_zero s'
  end.

(** What follows [\g]: [<name>] with a name that denotes group 0; any
    other name raises ([re.error], or [IndexError] for an unknown group
    name: both are [ReError] here).  This is the rule of Python 3.12 and
    later, where a number is a run of ASCII digits; up to 3.11 a signed or
    underscored zero is taken as group 0 too, with a deprecation warning.
    No statement below that ranges over templates with [\g] depends on
    this difference. *)
Definition group_zero (s : string) : result string :=
  match s with
  | String c s' =>
      if Ascii.eqb c "<" then
        match span_not ">" s' with
        | (_, EmptyString) => Raise (ReError "missing >, unterminated name")
        | (EmptyString, _) => Raise (ReError "missing group name")
        | (name, String _ rest) =>
            if all_zero name then Ok rest
            else Raise (ReError "invalid group reference")
        end
      else Raise (ReError "missing <")
  | EmptyString => Raise (ReError "missing <")
  end.

(** The escape that starts with a backslash and the character [c], in
    front of [rest]: the piece it stands for and what is left to parse. *)
Definition parse_escape (c : ascii) (rest : string) : result (piece * string) :=
  if Ascii.eqb c "g" then
    match group_zero rest with
    | Ok rest' => Ok (WholeMatch, rest')
    | Raise e => Raise e
    end
  else if Ascii.eqb c "0" then
    match rest with
    | String d1 (String d2 rest') =>
        if is_octdigit d1 && is_octdigit d2
        then Ok (Literal (chr (8 * digit_val d1 + digit_val d2)), rest')
        else if is_octdigit d1
        then Ok (Literal (chr (digit_val d1)), String d2 rest')
        else Ok (Literal (chr 0), rest)
    | String d1 EmptyString =>
        if is_octdigit d1
        then Ok (Literal (chr (digit_val d1)), EmptyString)
        else Ok (Literal (chr 0), rest)
    | EmptyString => Ok (Literal (chr 0), rest)
    end
  else if is_digit c then
    match rest with
    | String d1 (String d2 rest') =>
        if is_octdigit c && is_octdigit d1 && is_octdigit d2 then
          let v := (64 * digit_val c + 8 * digit_val d1 + digit_val d2)%nat in
          if (255 <? v)%nat
          then Raise (ReError "octal escape value outside of range 0-0o377")
          else Ok (Literal (chr v), rest')
        else Raise (ReError "invalid group reference")
    | _ => Raise (ReError "invalid group reference")
    end
  else
    match escape_char c with
    | Some n => Ok (Literal (chr n), rest)
    | None =>
        if is_ascii_letter c then Raise (ReError "bad escape")
        else Ok (Literal (String "\" (String c EmptyString)), rest)
    end.

Fixpoint parse_template (fuel : nat) (t : string) : result (list piece) :=
  match fuel with
  | O => Ok []
  | S fuel' =>
      let continue (p : piece) (rest : string) :=
        match parse_template fuel' rest with
        | Ok ps => Ok (p :: ps)
        | Raise e => Raise e
        end in
      match t with
      | EmptyString => Ok []
      | String a rest =>
          if Ascii.eqb a "\" then
            match rest with
            | EmptyString => Raise (ReError "bad escape (end of pattern)")
            | String c rest' =>
                match parse_escape c rest' with
                | Ok (p, rest'') => continue p rest''
                | Raise e => Raise e
                end
            end
          else continue (Literal (String a EmptyString)) rest
      end
  end.

Definition compile_template (repl : string) : result (list piece) :=
  parse_template (String.length repl) repl.

Fixpoint expand (tpl : list piece) (m : string) : string :=
  match tpl with
  | [] => EmptyString
  | Literal s :: tpl' => s +++ expand tpl' m
  | WholeMatch :: tpl' => m +++ expand tpl' m
  end.

(** *** [re.sub(pattern, repl, string)]

    The scan goes left to right; where the pattern matches, the expanded
    template is emitted and the scan resumes after the match; elsewhere
    the character is copied.  [skip] counts the characters of the current
    match still to pass. *)
Fixpoint sub_scan (tpl : list piece) (skip : nat) (s : string) : string :=
  match s with
  | EmptyString => EmptyString
  | String c s' =>
      match skip with
      | S k => sub_scan tpl k s'
      | O =>
          match block_match s with
          | Some (m, _) => expand tpl m +++ sub_scan tpl (String.length m - 1) s'
          | None => String c (sub_scan tpl O s')
          end
      end
  end.

Definition re_sub (repl content : string) : result string :=
  match compile_template repl with
  | Raise e => Raise e
  | Ok tpl => Ok (sub_scan tpl O content)
  end.

(** *** The script *)

(** What the script reads and writes: the entries of [public/audio], the
    content of [PalettePlaylist.tsx], and the number of times that file
    has been written. *)
Record world : Type := {
  audio_dir : list string;
  playlist_file : string;
  writes : nat
}.

Definition glob : M world (list string) :=
  w <- get_state ;; ret (glob_wav (audio_dir w)).

Definition updated_msg (n : Z) : string :=
  "Updated PalettePlaylist.tsx with " +++ str n +++ " audio files.".
Definition unchanged_msg : string :=
  "No changes needed - file already up to date.".

(** The body of the script, over the two file operations [read] (lines
    38-39) and [write] (lines 46-47). *)
Definition sync_with (read : M world string) (write : string -> M world unit)
  : M world unit :=
  found <- glob ;;
  let audio_files := sorted String.ltb (fun f => f) (map stem found) in
  print ("Found " +++ str (len audio_files) +++ " audio files:") ;;
  for_each audio_files (fun f => print ("  - " +++ f)) ;;
  let set_content := set_content audio_files in
  print EmptyString ;;
  print "Generated set:" ;;
  print set_content ;;
  content <- read ;;
  new_content <- lift (re_sub set_content content) ;;
  if negb (String.eqb new_content content) then
    write new_content ;;
    print EmptyString ;;
    print (updated_msg (len audio_files))
  else
    print EmptyString ;;
    print unchanged_msg.

(** *** The text layer

    Here [playlist_file] is the text of the target: what [f.read()]
    returns and what [f.write()] receives. *)
Definition read_file : M world string :=
  w <- get_state ;; ret (playlist_file w).

Definition write_file (text : string) : M world unit :=
  w <- get_state ;;
  put_state {| audio_dir := audio_dir w;
               playlist_file := text;
               writes := S (writes w) |}.

Definition sync : M world unit := sync_with read_file write_file.

(** *** The file layer

    Here [playlist_file] is the content of the file on disk, in bytes, and
    [writes] counts the times the file is opened for writing.  The file
    exists and can be opened for reading and for writing: an [OSError] of
    [open], [read] or [write] is outside the model. *)

Definition CR : ascii := "013"%char.
Definition LF : ascii := "010"%char.

(** Universal newlines, as a text-mode read applies them: a carriage
    return, with the line feed that follows it if there is one, is read as
    one line feed. *)
Fixpoint universal_newlines (s : string) : string :=
  match s with
  | EmptyString => EmptyString
  | String a s1 =>
      if Ascii.eqb a CR then
        match s1 with
        | String b s2 =>
            if Ascii.eqb b LF then String LF (universal_newlines s2)
            else String LF (universal_newlines s1)
        | EmptyString => String LF EmptyString
        end
      else String a (universal_newlines s1)
  end.

Definition byte_in (lo hi : nat) (b : ascii) : bool :=
  (lo <=? nat_of_ascii b)%nat && (nat_of_ascii b <=? hi)%nat.

(** Well-formed UTF-8, as the strict codec accepts it: no overlong form,
    no surrogate, nothing above U+10FFFF. *)
Fixpoint utf8_valid (s : string) : bool :=
  match s with
  | EmptyString => true
  | String a s1 =>
      if byte_in 0 127 a then utf8_valid s1
      else
        match s1 with
        | EmptyString => false
        | String b s2 =>
            if byte_in 194 223 a then byte_in 128 191 b && utf8_valid s2
            else
              match s2 with
              | EmptyString => false
              | String c s3 =>
                  if byte_in 224 239 a then
                    (if byte_in 224 224 a then byte_in 160 191 b
                     else if byte_in 237 237 a then byte_in 128 159 b
                     else byte_in 128 191 b)
                    && byte_in 128 191 c && utf8_valid s3
                  else
                    match s3 with
                    | EmptyString => false
                    | String d s4 =>
                        byte_in 240 244 a
                        && (if byte_in 240 240 a then byte_in 144 191 b
                            else if byte_in 244 244 a then byte_in 128 143 b
                            else byte_in 128 191 b)
                        && byte_in 128 191 c && byte_in 128 191 d
                        && utf8_valid s4
                    end
              end
        end
  end.

(** [open(playlist_file, 'r', encoding='utf-8')] and [f.read()]. *)
Definition read_text : M world string :=
  w <- get_state ;;
  if utf8_valid (playlist_file w)
  then ret (universal_newlines (playlist_file w))
  else lift (Raise UnicodeDecodeError).

(** [open(playlist_file, 'w', encoding='utf-8')] and [f.write(text)]:
    opening empties the file; the text is then encoded, which raises when
    it holds a character that UTF-8 cannot encode (bytes of a file name
    that are not UTF-8 are such characters); a line feed is written as it
    is. *)
Definition write_text (text : string) : M world unit :=
  w <- get_state ;;
  put_state {| audio_dir := audio_dir w;
               playlist_file := EmptyString;
               writes := S (writes w) |} ;;
  if utf8_valid text
  then put_state {| audio_dir := audio_dir w;
                    playlist_file := text;
                    writes := S (writes w) |}
  else lift (Raise UnicodeEncodeError).

Definition sync_on_disk : M world unit := sync_with read_text write_text.

End SyncAudio.

(** * Vocabulary of the statements *)

Import LyriaBatches SyncAudio.

(** ** Sorting *)

(** The order of a decorated list: the key of [y] is not below the key
    of [x]. *)
Definition key_le {A K : Type} (lt : K -> K -> bool) (x y : K * A) : Prop :=
  lt (fst y) (fst x) = false.

(** ** The batch reporter *)

(** The group a track goes to. *)
Definition playlist_of (t : track) : string :=
  get (playlist (snd t)) "Uncategorized".

(** Whether a track goes to the group [g]. *)
Definition in_group (g : string) (t : track) : bool :=
  String.eqb (playlist_of t) g.

(** The list under a key, empty when the key is absent. *)
Definition tracks_or_empty (o : option (list track)) : list track :=
  match o with Some l => l | None => [] end.

(** The entry of a group: absent when no track goes to it. *)
Definition nonempty_group (l : list track) : option (list track) :=
  match l with [] => None | _ => Some l end.

(** The fixed lines around the summary. *)
Definition rule60 : string := repeat_str "=" 60.

Definition summary_header : list string :=
  [rule60; "AVAILABLE PLAYLISTS"%string; rule60].

Definition summary_footer : list string :=
  [EmptyString;
   "Usage: python scripts/lyria-batches.py " +++ dquote +++ "Playlist Name"
   +++ dquote].

(** A line of the summary: name, track count, batch count. *)
Definition summary_line (row : string * Z * Z) : string :=
  let '(pl, n, b) := row in
  "  " +++ pl +++ ": " +++ str n +++ " tracks (" +++ str b +++ " batches)".

(** The groups in the order of the summary. *)
Definition summary_order (pls : grouping) : list (string * list track) :=
  sorted Z.ltb summary_key (items pls).

(** What the loop of the summary prints for each group. *)
Definition summary_rows (pls : grouping) : list (string * Z * Z) :=
  map (fun x => (fst x, len (snd x), (len (snd x) + 5) / 6)) (summary_order pls).

(** The fixed lines of the report. *)
Definition not_found_msg (playlist_name : string) : string :=
  "Playlist '" +++ playlist_name +++ "' not found.".

Definition report_header (playlist_name : string) : list string :=
  [nl +++ rule60; "LYRIA BATCHES: " +++ playlist_name; rule60].

(** What one turn of the batch loop prints. *)
Definition track_block (t : track) : list string :=
  [nl +++ "[" +++ fst t +++ "] (" +++ get (bpm (snd t)) "?" +++ " BPM, "
   +++ get (energy (snd t)) "?" +++ " energy)";
   "  " +++ get (audioPrompt (snd t)) "No prompt"].

(** What the report prints for one batch. *)
Definition batch_output (batch_num : Z) (batch : list track) : list string :=
  [nl +++ "--- BATCH " +++ str batch_num +++ " (" +++ str (len batch)
   +++ " tracks) ---";
   EmptyString;
   "Filenames (for export):"%string]
  ++ map (fun t => "  " +++ fst t +++ ".wav") batch
  ++ [EmptyString; "Audio prompts for Gemini/Lyria:"%string; repeat_str "-" 40]
  ++ List.concat (map track_block batch)
  ++ [EmptyString; rule60].

(** The start indices of the batches, the batches and their numbers. *)
Definition batch_starts (tracks : list track) : list Z := range 0 (len tracks) 6.
Definition batches (tracks : list track) : list (list track) :=
  map (fun i => slice tracks i (i + 6)) (batch_starts tracks).
Definition batch_nums (tracks : list track) : list Z :=
  map (fun i => i / 6 + 1) (batch_starts tracks).

(** The number of batches of a list of [n] tracks. *)
Definition batch_total (n : nat) : nat := ((n + 5) / 6)%nat.

(** A loaded mapping with two playlists. *)
Definition sample_info (pl : option string) : info :=
  {| playlist := pl; audioPrompt := None; bpm := Some "120"%string; energy := None |}.

Definition sample_data : dict info :=
  [("a", sample_info (Some "X")); ("b", sample_info None);
   ("c", sample_info (Some "X"))]%string.

(** ** The synchroniser *)

(** [c in s] *)
Fixpoint has_char (c : ascii) (s : string) : bool :=
  match s with
  | EmptyString => false
  | String a s' => Ascii.eqb a c || has_char c s'
  end.

(** A name the pattern can match between quotes. *)
Definition quotable (f : string) : Prop :=
  f <> EmptyString /\ has_char "'" f = false.


(** The name entries of the generated block. *)
Definition entries (names : list string) : string :=
  fold_right (fun f acc => name_entry f +++ acc) EmptyString names.

(** What a run prints before it reads the target. *)
Definition sync_prints (files : list string) : list string :=
  ("Found " +++ str (len files) +++ " audio files:")
    :: map (fun f => "  - " +++ f) files
    ++ [EmptyString; "Generated set:"%string; set_content files].

(** The state after the target has been overwritten with [text]. *)
Definition with_file (w : world) (text : string) : world :=
  {| audio_dir := audio_dir w; playlist_file := text; writes := S (writes w) |}.

(** The part of the pattern for one name entry. *)
Definition line_re : regex :=
  Seq (Lit "  '") (Seq (Plus (NotChar "'")) (Lit ("'," +++ nl))).



(** Checks on a given text: every opening marker starts a block; no
    block starts anywhere. *)
Definition is_some {A : Type} (o : option A) : bool :=
  match o with Some _ => true | None => false end.


Fixpoint no_block (s : string) : bool :=
  negb (is_some (block_match s))
  && match s with
     | EmptyString => true
     | String _ s' => no_block s'
     end.

(** The reading of C3: one matching substring is replaced by the block,
    everything else is kept. *)
Definition replaces_one (content repl new_content : string) : Prop :=
  exists pre m post,
    content = pre +++ m +++ post /\ matches pattern m
    /\ new_content = pre +++ repl +++ post.

(** ** Sample inputs of the synchroniser *)

Definition empty_block : string := open_marker +++ close_marker.

Definition sample_entries : list string :=
  ["b.wav"; "notes.txt"; "a.wav"]%string.

Definition sample_world : world :=
  {| audio_dir := sample_entries;
     playlist_file := "// generated" +++ nl +++ empty_block +++ nl;
     writes := 0 |}.



(** A target with two blocks. *)
Definition two_blocks_world : world :=
  {| audio_dir := ["a.wav"%string];
     playlist_file := empty_block +++ nl +++ empty_block;
     writes := 0 |}.

(** A directory with a file named [\1.wav] and a target without a block. *)
Definition bad_name_world : world :=
  {| audio_dir := [String "\" "1.wav"];
     playlist_file := "export {};" +++ nl;
     writes := 0 |}.

(** ** Further vocabulary *)

(** The name of the group a record belongs to, read off the record: its
    playlist, and "Uncategorized" when it has none. *)
Definition named_group (t : track) : string :=
  match playlist (snd t) with
  | Some p => p
  | None => "Uncategorized"%string
  end.

(** Whether a record belongs to the group named [g]. *)
Definition has_name (g : string) (t : track) : bool :=
  String.eqb (named_group t) g.

(** The distinct elements of a list, in the order of their first
    appearance. *)
Fixpoint first_seen (l : list string) : list string :=
  match l with
  | [] => []
  | x :: l' => x :: filter (fun y => negb (String.eqb y x)) (first_seen l')
  end.

(** The sum of a list of integers. *)
Definition zsum (l : list Z) : Z := fold_right Z.add 0 l.

(** Whether a record has no playlist or the playlist "Uncategorized". *)
Definition uncategorized (t : track) : bool :=
  match playlist (snd t) with
  | None => true
  | Some p => String.eqb p "Uncategorized"
  end.

(** What the report of a known group prints. *)
Definition report_output (name : string) (tracks : list track) : list string :=
  report_header name
  ++ List.concat (map (fun nb => batch_output (fst nb) (snd nb))
                      (combine (batch_nums tracks) (batches tracks))).

(** The order of strings: [a] is not above [b]. *)
Definition str_le (a b : string) : Prop := String.ltb b a = false.

(** Whether a match of the pattern starts at a character of [pre], in the
    text [pre] followed by [rest]. *)
Fixpoint match_starts_in (pre rest : string) : bool :=
  match pre with
  | EmptyString => false
  | String _ pre' =>
      is_some (block_match (pre +++ rest)) || match_starts_in pre' rest
  end.


(** * Properties *)

(** ** Sorting *)

Section SortingFacts.
Context {A K : Type} (lt : K -> K -> bool).

Lemma insert_perm (x : K * A) l : Permutation (insert lt x l) (x :: l).
Proof.
  induction l as [|y l IH]; simpl; [reflexivity|].
  destruct (lt (fst y) (fst x)); [|reflexivity].
  rewrite IH. apply perm_swap.
Qed.

Lemma sort_decorated_perm (l : list (K * A)) : Permutation (sort_decorated lt l) l.
Proof.
  induction l as [|x l IH]; simpl; [reflexivity|].
  rewrite insert_perm. now constructor.
Qed.

(** Neither step looks at the decorated values. *)
Lemma insert_map_snd {B : Type} (f : A -> B) (x : K * A) l :
  map (fun y => (fst y, f (snd y))) (insert lt x l)
  = insert lt (fst x, f (snd x)) (map (fun y => (fst y, f (snd y))) l).
Proof.
  induction l as [|y l IH]; simpl; [reflexivity|].
  destruct (lt (fst y) (fst x)); simpl; [now rewrite IH | reflexivity].
Qed.

Lemma sort_decorated_map_snd {B : Type} (f : A -> B) (l : list (K * A)) :
  map (fun y => (fst y, f (snd y))) (sort_decorated lt l)
  = sort_decorated lt (map (fun y => (fst y, f (snd y))) l).
Proof.
  induction l as [|x l IH]; simpl; [reflexivity|].
  now rewrite insert_map_snd, IH.
Qed.

Hypothesis lt_asym : forall a b, lt a b = true -> lt b a = false.

Lemma insert_sorted (x : K * A) l : Sorted (key_le lt) l -> Sorted (key_le lt) (insert lt x l).
Proof.
  induction l as [|y l IH]; simpl; intros Hs.
  - repeat constructor.
  - destruct (lt (fst y) (fst x)) eqn:E.
    + inversion Hs as [|? ? Hs' Hhd]; subst. constructor; [now apply IH|].
      destruct l as [|z l]; simpl.
      * constructor. unfold key_le. now apply lt_asym.
      * destruct (lt (fst z) (fst x)); constructor.
        -- now inversion Hhd.
        -- unfold key_le. now apply lt_asym.
    + constructor; [assumption|]. constructor. exact E.
Qed.

Lemma sort_decorated_sorted (l : list (K * A)) : Sorted (key_le lt) (sort_decorated lt l).
Proof.
  induction l as [|x l IH]; simpl; [constructor | now apply insert_sorted].
Qed.

(** Stability: the elements whose keys are pairwise not below one another
    keep their order. *)
Lemma insert_filter (P : K -> bool) (x : K * A) l :
  (forall a b, P a = true -> P b = true -> lt a b = false) ->
  filter (fun y => P (fst y)) (insert lt x l)
  = filter (fun y => P (fst y)) (x :: l).
Proof.
  intros HP. induction l as [|y l IH]; [reflexivity|].
  simpl. destruct (lt (fst y) (fst x)) eqn:E; [|reflexivity].
  simpl. rewrite IH. simpl.
  destruct (P (fst x)) eqn:Px, (P (fst y)) eqn:Py; try reflexivity.
  rewrite (HP _ _ Py Px) in E. discriminate.
Qed.

Lemma sort_decorated_stable (P : K -> bool) (l : list (K * A)) :
  (forall a b, P a = true -> P b = true -> lt a b = false) ->
  filter (fun y => P (fst y)) (sort_decorated lt l) = filter (fun y => P (fst y)) l.
Proof.
  intros HP. induction l as [|x l IH]; [reflexivity|].
  simpl sort_decorated. rewrite insert_filter by assumption.
  simpl. now rewrite IH.
Qed.

Lemma sort_decorated_Forall (P : K * A -> Prop) (l : list (K * A)) :
  Forall P l -> Forall P (sort_decorated lt l).
Proof.
  intros H. rewrite Forall_forall in *. intros x Hx. apply H.
  eapply Permutation_in; [apply sort_decorated_perm | exact Hx].
Qed.

Lemma decorated_keys (key : A -> K) (l : list A) :
  Forall (fun y => fst y = key (snd y))
         (sort_decorated lt (map (fun a => (key a, a)) l)).
Proof.
  apply sort_decorated_Forall. rewrite Forall_forall. intros y Hy.
  apply in_map_iff in Hy as [a [<- _]]. reflexivity.
Qed.

Lemma sorted_perm (key : A -> K) (l : list A) : Permutation (sorted lt key l) l.
Proof.
  unfold sorted. rewrite sort_decorated_perm, map_map. simpl.
  now rewrite map_id.
Qed.

Lemma Sorted_map_snd (key : A -> K) (d : list (K * A)) :
  Forall (fun y => fst y = key (snd y)) d ->
  Sorted (key_le lt) d ->
  Sorted (fun a b => lt (key b) (key a) = false) (map snd d).
Proof.
  intros Hk Hs. induction Hs as [|y d Hs IH Hhd]; simpl; [constructor|].
  inversion Hk as [|? ? Hy Hd]; subst. constructor; [now apply IH|].
  destruct Hhd as [|z d' Hyz]; simpl; constructor.
  inversion Hd as [|? ? Hz _]; subst. unfold key_le in Hyz.
  now rewrite Hy, Hz in Hyz.
Qed.

Lemma sorted_Sorted (key : A -> K) (l : list A) :
  Sorted (fun a b => lt (key b) (key a) = false) (sorted lt key l).
Proof.
  apply Sorted_map_snd; [apply decorated_keys | apply sort_decorated_sorted].
Qed.

Lemma filter_map_snd (P : A -> bool) (d : list (K * A)) :
  filter P (map snd d) = map snd (filter (fun y => P (snd y)) d).
Proof.
  induction d as [|y d IH]; simpl; [reflexivity|].
  destruct (P (snd y)); simpl; now rewrite IH.
Qed.

Lemma sorted_stable (P : K -> bool) (key : A -> K) (l : list A) :
  (forall a b, P a = true -> P b = true -> lt a b = false) ->
  filter (fun a => P (key a)) (sorted lt key l) = filter (fun a => P (key a)) l.
Proof.
  intros HP. unfold sorted. rewrite filter_map_snd.
  rewrite (filter_ext_in (fun y => P (key (snd y))) (fun y => P (fst y))).
  - rewrite sort_decorated_stable by assumption.
    induction l as [|a l IH]; simpl; [reflexivity|].
    destruct (P (key a)); simpl; now rewrite IH.
  - intros y Hy. pose proof (decorated_keys key l) as Hk.
    rewrite Forall_forall in Hk. now rewrite (Hk y Hy).
Qed.

End SortingFacts.

(** ** Dictionaries *)

Section DictFacts.
Context {V : Type}.
Implicit Types (d : dict V) (k g : string).

Lemma dict_get_app d1 d2 k :
  dict_get (d1 ++ d2) k
  = match dict_get d1 k with Some v => Some v | None => dict_get d2 k end.
Proof.
  induction d1 as [|[k' v] d1 IH]; simpl; [reflexivity|].
  destruct (String.eqb k' k); [reflexivity | exact IH].
Qed.

Lemma dict_get_update d k f g :
  dict_get (update d k f) g
  = if String.eqb k g then option_map f (dict_get d g) else dict_get d g.
Proof.
  induction d as [|[k' v] d IH]; simpl.
  - now destruct (String.eqb k g).
  - destruct (String.eqb_spec k' k) as [->|Hk]; simpl.
    + destruct (String.eqb_spec k g); reflexivity.
    + rewrite IH. destruct (String.eqb_spec k' g) as [->|Hg]; [|reflexivity].
      destruct (String.eqb_spec k g); [congruence | reflexivity].
Qed.

Lemma keys_update d k f : keys (update d k f) = keys d.
Proof.
  induction d as [|[k' v] d IH]; simpl; [reflexivity|].
  destruct (String.eqb k' k); simpl; [reflexivity | now f_equal].
Qed.

Lemma dict_get_In d k v : dict_get d k = Some v -> In (k, v) d.
Proof.
  induction d as [|[k' v'] d IH]; simpl; [discriminate|].
  destruct (String.eqb_spec k' k) as [->|Hk]; intros H.
  - left. congruence.
  - right. now apply IH.
Qed.

Lemma dict_get_None d k : dict_get d k = None <-> ~ In k (keys d).
Proof.
  induction d as [|[k' v'] d IH]; simpl; [tauto|].
  destruct (String.eqb_spec k' k) as [->|Hk].
  - split; [discriminate | tauto].
  - rewrite IH. tauto.
Qed.

Lemma In_dict_get d k v : NoDup (keys d) -> In (k, v) d -> dict_get d k = Some v.
Proof.
  induction d as [|[k' v'] d IH]; simpl; [tauto|].
  intros Hnd [Heq|Hin]; inversion Hnd as [|? ? Hk' Hnd']; subst.
  - inversion Heq; subst. now rewrite String.eqb_refl.
  - destruct (String.eqb_spec k' k) as [->|Hk]; [|now apply IH].
    exfalso. apply Hk'. change k with (fst (k, v)). now apply in_map.
Qed.

Lemma contains_true d k : contains d k = true <-> In k (keys d).
Proof.
  unfold contains. destruct (dict_get d k) eqn:E.
  - split; [intros _ | reflexivity].
    apply dict_get_In in E. change k with (fst (k, v)). now apply in_map.
  - apply dict_get_None in E. split; [discriminate | tauto].
Qed.

Lemma keys_setdefault d k v :
  keys (setdefault d k v) = if contains d k then keys d else keys d ++ [k].
Proof.
  unfold setdefault. destruct (contains d k); [reflexivity|].
  unfold keys. now rewrite map_app.
Qed.

Lemma dict_get_setdefault d k v g :
  dict_get (setdefault d k v) g
  = match dict_get d g with
    | Some x => Some x
    | None => if String.eqb k g then Some v else None
    end.
Proof.
  unfold setdefault, contains. destruct (dict_get d k) eqn:E.
  - destruct (dict_get d g) eqn:G; [reflexivity|].
    destruct (String.eqb_spec k g); [congruence | reflexivity].
  - rewrite dict_get_app. simpl. reflexivity.
Qed.

End DictFacts.

(** ** The playlist grouping *)

Lemma dict_get_group_step (d : grouping) (t : track) (g : string) :
  dict_get (group_step d t) g
  = if in_group g t then Some (tracks_or_empty (dict_get d g) ++ [t])
    else dict_get d g.
Proof.
  destruct t as [pid i]. unfold group_step, in_group, playlist_of. simpl.
  rewrite dict_get_update, dict_get_setdefault.
  destruct (String.eqb_spec (get (playlist i) "Uncategorized") g);
    now destruct (dict_get d g).
Qed.

Lemma keys_group_step (d : grouping) (t : track) :
  keys (group_step d t)
  = if contains d (playlist_of t) then keys d else keys d ++ [playlist_of t].
Proof.
  destruct t as [pid i]. unfold group_step, playlist_of. simpl.
  now rewrite keys_update, keys_setdefault.
Qed.

Lemma playlists_snoc (data : dict info) (t : track) :
  playlists (data ++ [t]) = group_step (playlists data) t.
Proof. unfold playlists, items. now rewrite fold_left_app. Qed.

Lemma nonempty_group_snoc (l : list track) (t : track) :
  nonempty_group (l ++ [t]) = Some (tracks_or_empty (nonempty_group l) ++ [t]).
Proof. destruct l; reflexivity. Qed.

Lemma dict_get_playlists (data : dict info) (g : string) :
  dict_get (playlists data) g = nonempty_group (filter (in_group g) data).
Proof.
  induction data as [|t data IH] using rev_ind; [reflexivity|].
  rewrite playlists_snoc, dict_get_group_step, filter_app, IH. simpl.
  destruct (in_group g t).
  - symmetry. apply nonempty_group_snoc.
  - now rewrite app_nil_r.
Qed.

Lemma keys_playlists_NoDup (data : dict info) : NoDup (keys (playlists data)).
Proof.
  induction data as [|t data IH] using rev_ind; [constructor|].
  rewrite playlists_snoc, keys_group_step.
  destruct (contains (playlists data) (playlist_of t)) eqn:E; [assumption|].
  apply NoDup_app; [assumption | repeat constructor; simpl; tauto |].
  intros k Hk [<-|[]]. apply contains_true in Hk. congruence.
Qed.

Lemma In_playlists (data : dict info) (g : string) (tracks : list track) :
  In (g, tracks) (playlists data) <->
  tracks <> [] /\ tracks = filter (in_group g) data.
Proof.
  split.
  - intros Hin. apply In_dict_get in Hin; [|apply keys_playlists_NoDup].
    rewrite dict_get_playlists in Hin.
    destruct (filter (in_group g) data); [discriminate|].
    inversion Hin. split; [discriminate | reflexivity].
  - intros [Hne ->]. apply dict_get_In. rewrite dict_get_playlists.
    destruct (filter (in_group g) data); [congruence | reflexivity].
Qed.

(** ** Statements *)

Section StatementFacts.
Context {St : Type}.

Lemma for_each_pure {A : Type} (body : A -> M St unit) (g : A -> list string)
      (l : list A) (st : St) :
  (forall a st', body a st' = (st', g a, Ok tt)) ->
  for_each l body st = (st, List.concat (map g l), Ok tt).
Proof.
  intros Hbody. induction l as [|a l IH]; simpl; [reflexivity|].
  unfold bind. now rewrite Hbody, IH.
Qed.

Lemma for_each_print {A : Type} (f : A -> string) (l : list A) (st : St) :
  for_each l (fun a => print (f a)) st = (st, map f l, Ok tt).
Proof.
  rewrite (for_each_pure _ (fun a => [f a])); [|reflexivity].
  f_equal. f_equal. induction l as [|a l IH]; simpl; now f_equal.
Qed.

End StatementFacts.

(** ** The summary *)

Lemma print_playlist_summary_run (pls : grouping) :
  print_playlist_summary pls
  = (pls, summary_header ++ map summary_line (summary_rows pls) ++ summary_footer,
     Ok tt).
Proof.
  unfold print_playlist_summary, bind, print, get_state.
  rewrite (for_each_pure _ (fun x => [summary_line (fst x, len (snd x), (len (snd x) + 5) / 6)])).
  - unfold summary_rows, summary_order. rewrite map_map. simpl.
    f_equal. f_equal. f_equal. f_equal. f_equal. f_equal.
    induction (sorted Z.ltb summary_key (items pls)) as [|x l IH];
      simpl; now f_equal.
  - intros [pl tracks] st'. reflexivity.
Qed.

Lemma ceiling_sixth (n : Z) : Qceiling (Qmake n 6) = (n + 5) / 6.
Proof.
  unfold Qceiling, Qfloor. simpl.
  Z.to_euclidean_division_equations. lia.
Qed.

Lemma len_pos {A : Type} (l : list A) : l <> [] -> 1 <= len l.
Proof. destruct l; [congruence|]. unfold len. simpl. lia. Qed.

(** C1. For every loaded track mapping, the summary prints one line per
    playlist group, and the batch count on the line of a group is the
    ceiling of its track count divided by 6. *)
Theorem summary_batch_count_is_ceiling (data : dict info) :
  let pls := playlists data in
  print_playlist_summary pls
  = (pls, summary_header ++ map summary_line (summary_rows pls) ++ summary_footer,
     Ok tt)
  /\ Permutation (map (fun r => (fst (fst r), snd (fst r))) (summary_rows pls))
                 (map (fun x => (fst x, len (snd x))) (items pls))
  /\ Forall (fun r => snd r = Qceiling (Qmake (snd (fst r)) 6)) (summary_rows pls)
  /\ forall g tracks, In (g, tracks) (items pls) ->
       In (g, len tracks, Qceiling (Qmake (len tracks) 6)) (summary_rows pls).
Proof.
  intros pls. split; [apply print_playlist_summary_run|].
  unfold summary_rows, summary_order. split; [|split].
  - rewrite map_map. simpl. apply Permutation_map, sorted_perm.
  - rewrite Forall_forall. intros r Hr.
    apply in_map_iff in Hr as [x [<- _]]. simpl. now rewrite ceiling_sixth.
  - intros g tracks Hin. rewrite ceiling_sixth.
    apply in_map_iff. exists (g, tracks). split; [reflexivity|].
    eapply Permutation_in; [symmetry; apply sorted_perm | exact Hin].
Qed.

Lemma grouping_partition_by_key (data : dict info) :
  NoDup (keys data) ->
  let pls := playlists data in
  NoDup (keys pls)
  /\ (forall g tracks, In (g, tracks) (items pls) ->
        tracks = filter (in_group g) (items data) /\ NoDup tracks)
  /\ (forall t, In t (items data) ->
        exists tracks,
          In (playlist_of t, tracks) (items pls) /\ In t tracks
          /\ forall g tracks', In (g, tracks') (items pls) -> In t tracks' ->
               g = playlist_of t).
Proof.
  intros Hdata pls. assert (Hnd : NoDup (items data)).
  { apply NoDup_map_inv with (f := fst). exact Hdata. }
  split; [apply keys_playlists_NoDup|]. split.
  - intros g tracks Hin. apply In_playlists in Hin as [_ ->].
    split; [reflexivity | now apply NoDup_filter].
  - intros t Ht. exists (filter (in_group (playlist_of t)) data).
    assert (Hin : In t (filter (in_group (playlist_of t)) data)).
    { apply filter_In. split; [exact Ht|]. unfold in_group. apply String.eqb_refl. }
    split; [|split].
    + apply In_playlists. split; [|reflexivity].
      intros E. unfold track in *. rewrite E in Hin. exact Hin.
    + exact Hin.
    + intros g tracks' Hg Ht'. apply In_playlists in Hg as [_ ->].
      apply filter_In in Ht' as [_ Hg]. unfold in_group in Hg.
      apply String.eqb_eq in Hg. now symmetry.
Qed.

Lemma playlist_of_named_group (t : track) : playlist_of t = named_group t.
Proof. destruct t as [pid i]. unfold playlist_of, named_group. simpl. now destruct (playlist i). Qed.

(** C6. The grouping is a complete partition of the loaded records: the
    group names are distinct; each group holds exactly the pairs whose
    [playlist] field is its name, or which have no such field when its
    name is "Uncategorized", in the order of the loaded mapping; and every
    pair of the mapping is in the group so named, once, and in no other
    group. *)
Theorem grouping_is_partition (data : dict info) (Hdata : NoDup (keys data)) :
  let pls := playlists data in
  NoDup (keys pls)
  /\ (forall g tracks, In (g, tracks) (items pls) ->
        tracks = filter (has_name g) (items data) /\ NoDup tracks)
  /\ (forall t, In t (items data) ->
        exists tracks,
          In (named_group t, tracks) (items pls) /\ In t tracks
          /\ forall g tracks', In (g, tracks') (items pls) -> In t tracks' ->
               g = named_group t).
Proof.
  intros pls.
  destruct (grouping_partition_by_key data Hdata) as [Hk [Hg Ht]].
  split; [exact Hk|]. split.
  - intros g tracks Hin. destruct (Hg g tracks Hin) as [-> Hnd].
    split; [|exact Hnd]. apply filter_ext. intros t.
    unfold in_group, has_name. now rewrite playlist_of_named_group.
  - intros t Hin. destruct (Ht t Hin) as [tracks [H1 [H2 H3]]].
    rewrite playlist_of_named_group in H1, H3. now exists tracks.
Qed.

Lemma grouping_is_partition_witness :
  NoDup (keys sample_data)
  /\ exists tracks,
       In ("Uncategorized"%string, tracks) (items (playlists sample_data))
       /\ In ("b"%string, sample_info None) tracks.
Proof.
  assert (H : NoDup (keys sample_data)).
  { unfold sample_data, keys. simpl.
    repeat constructor; simpl; intuition discriminate. }
  split; [exact H|].
  destruct (proj2 (proj2 (grouping_is_partition sample_data H))
              ("b"%string, sample_info None)) as [tracks [H1 [H2 _]]].
  - right. left. reflexivity.
  - exists tracks. split; [exact H1 | exact H2].
Defined.

(** ** The batch report *)

Lemma print_batch_unknown (pls : grouping) (name : string) :
  contains pls name = false ->
  print_batch name pls
  = (pls,
     not_found_msg name
     :: summary_header ++ map summary_line (summary_rows pls) ++ summary_footer,
     Ok tt).
Proof.
  intros H. unfold print_batch, bind, get_state. rewrite H. simpl.
  now rewrite print_playlist_summary_run.
Qed.

Lemma print_batch_known (pls : grouping) (name : string) (tracks : list track) :
  dict_get pls name = Some tracks ->
  print_batch name pls
  = (pls,
     report_header name
     ++ List.concat (map (fun i => batch_output (i / 6 + 1) (slice tracks i (i + 6)))
                         (batch_starts tracks)),
     Ok tt).
Proof.
  intros H. unfold print_batch, bind at 1, get_state, contains, getitem.
  rewrite H. simpl. unfold bind at 1, lift. unfold bind at 1, print at 1.
  unfold bind at 1, print at 1. unfold bind at 1, print at 1.
  rewrite (for_each_pure _
             (fun i => batch_output (i / 6 + 1) (slice tracks i (i + 6)))).
  - reflexivity.
  - intros i st'. unfold bind, print.
    rewrite (for_each_pure (St := grouping) _ (fun t : track => ["  " +++ fst t +++ ".wav"])).
    2:{ intros [pid inf] st''. reflexivity. }
    rewrite (for_each_pure _ track_block).
    2:{ intros [pid inf] st''. reflexivity. }
    unfold batch_output. simpl. f_equal. f_equal. f_equal. f_equal. f_equal.
    f_equal. clear. induction (slice tracks i (i + 6)) as [|t l IH];
      simpl; now f_equal.
Qed.

(** *** Ranges and slices *)

Lemma clamp_index_nonneg {A : Type} (l : list A) (i : Z) :
  0 <= i -> clamp_index l i = Nat.min (Z.to_nat i) (length l).
Proof.
  intros Hi. unfold clamp_index, len.
  destruct (Z.ltb_spec i 0); lia.
Qed.

Lemma slice_nonneg {A : Type} (l : list A) (i j : Z) :
  0 <= i <= j ->
  slice l i j = firstn (Z.to_nat (j - i)) (skipn (Z.to_nat i) l).
Proof.
  intros Hij. unfold slice. rewrite !clamp_index_nonneg by lia.
  destruct (Nat.le_gt_cases (Z.to_nat i) (length l)) as [Hle|Hgt].
  - rewrite (Nat.min_l (Z.to_nat i)) by exact Hle.
    destruct (Nat.le_gt_cases (Z.to_nat j) (length l)) as [Hle'|Hgt'].
    + rewrite Nat.min_l by exact Hle'. f_equal. lia.
    + rewrite Nat.min_r by lia.
      rewrite !firstn_all2; [reflexivity | |]; rewrite length_skipn; lia.
  - rewrite !Nat.min_r by lia. rewrite Nat.sub_diag. simpl.
    rewrite (skipn_all2 l) by lia. now rewrite firstn_nil.
Qed.

Lemma batch_total_bounds (n : nat) :
  (n <= 6 * batch_total n < n + 6)%nat.
Proof.
  unfold batch_total.
  pose proof (Nat.div_mod_eq (n + 5) 6).
  pose proof (Nat.mod_upper_bound (n + 5) 6). lia.
Qed.

Lemma range_by_six (n : nat) :
  range 0 (Z.of_nat n) 6
  = map (fun k => Z.of_nat (6 * k)) (seq 0 (batch_total n)).
Proof.
  unfold range, batch_total.
  replace (Z.to_nat (if 0 <? Z.of_nat n then (Z.of_nat n - 0 + 6 - 1) / 6 else 0))
    with ((n + 5) / 6)%nat.
  - apply map_ext. intros k. lia.
  - destruct (Z.ltb_spec 0 (Z.of_nat n)) as [Hpos|Hz].
    + replace (Z.of_nat n - 0 + 6 - 1) with (Z.of_nat (n + 5)) by lia.
      change 6 with (Z.of_nat 6). rewrite <- Nat2Z.inj_div.
      now rewrite Nat2Z.id.
    + assert (n = 0%nat) as -> by lia. reflexivity.
Qed.

Lemma firstn_plus {A : Type} (a b : nat) (l : list A) :
  firstn (a + b) l = firstn a l ++ firstn b (skipn a l).
Proof.
  revert l. induction a as [|a IH]; intros l; [reflexivity|].
  destruct l as [|x l]; simpl.
  - now rewrite firstn_nil.
  - now rewrite IH.
Qed.

Lemma concat_chunks {A : Type} (l : list A) (m : nat) :
  List.concat (map (fun k => firstn 6 (skipn (6 * k) l)) (seq 0 m))
  = firstn (6 * m) l.
Proof.
  induction m as [|m IH]; [reflexivity|].
  rewrite seq_S, map_app, concat_app, IH. simpl List.concat.
  rewrite app_nil_r.
  replace (6 * S m)%nat with (6 * m + 6)%nat by lia.
  now rewrite firstn_plus.
Qed.

Lemma batches_by_six (tracks : list track) :
  batches tracks
  = map (fun k => firstn 6 (skipn (6 * k) tracks))
        (seq 0 (batch_total (length tracks))).
Proof.
  unfold batches, batch_starts, len. rewrite range_by_six, map_map.
  apply map_ext. intros k. rewrite slice_nonneg by lia.
  f_equal; [lia | now rewrite Nat2Z.id].
Qed.

Lemma batch_nums_by_six (tracks : list track) :
  batch_nums tracks = map Z.of_nat (seq 1 (batch_total (length tracks))).
Proof.
  unfold batch_nums, batch_starts, len. rewrite range_by_six, map_map.
  rewrite <- seq_shift, map_map. apply map_ext. intros k.
  rewrite Nat2Z.inj_mul. change (Z.of_nat 6) with 6.
  rewrite Z.mul_comm, Z.div_mul by lia. lia.
Qed.

Lemma length_chunk (tracks : list track) (k : nat) :
  length (firstn 6 (skipn (6 * k) tracks))
  = Nat.min 6 (length tracks - 6 * k).
Proof. now rewrite length_firstn, length_skipn. Qed.

Lemma combine_map_both {A B C : Type} (f : A -> B) (g : A -> C) (l : list A) :
  combine (map f l) (map g l) = map (fun x => (f x, g x)) l.
Proof. induction l as [|x l IH]; simpl; now f_equal. Qed.

(** C2. For a known playlist group, the report prints the batches of the
    group's stored track list: consecutive chunks numbered from 1, each of
    at most 6 tracks and all but the last of exactly 6, whose sizes add up
    to the track count and whose concatenation is the stored list. *)
Theorem report_partitions_group
        (pls : grouping) (name : string) (tracks : list track)
        (Hknown : dict_get pls name = Some tracks) :
  print_batch name pls
  = (pls,
     report_header name
     ++ List.concat (map (fun nb => batch_output (fst nb) (snd nb))
                         (combine (batch_nums tracks) (batches tracks))),
     Ok tt)
  /\ batch_nums tracks = map Z.of_nat (seq 1 (length (batches tracks)))
  /\ List.concat (batches tracks) = tracks
  /\ Forall (fun b => (1 <= length b <= 6)%nat) (batches tracks)
  /\ (forall k, (S k < length (batches tracks))%nat ->
        length (nth k (batches tracks) []) = 6%nat)
  /\ list_sum (map (@length track) (batches tracks)) = length tracks.
Proof.
  pose proof (batch_total_bounds (length tracks)) as Hb.
  assert (Hlen : length (batches tracks) = batch_total (length tracks)).
  { now rewrite batches_by_six, length_map, length_seq. }
  assert (Hcat : List.concat (batches tracks) = tracks).
  { rewrite batches_by_six, concat_chunks. apply firstn_all2. lia. }
  split; [|split; [|split; [|split; [|split]]]].
  - rewrite (print_batch_known pls name tracks Hknown).
    unfold batch_nums, batches. rewrite combine_map_both, map_map. reflexivity.
  - rewrite Hlen. apply batch_nums_by_six.
  - exact Hcat.
  - rewrite batches_by_six, Forall_forall. intros b Hin.
    apply in_map_iff in Hin as [k [<- Hk]]. apply in_seq in Hk.
    rewrite length_chunk. lia.
  - intros k Hk. rewrite Hlen in Hk. rewrite batches_by_six.
    rewrite (nth_indep _ [] (firstn 6 (skipn (6 * 0) tracks)))
      by (rewrite length_map, length_seq; lia).
    rewrite (map_nth (fun k => firstn 6 (skipn (6 * k) tracks))).
    rewrite seq_nth by lia. rewrite length_chunk. lia.
  - rewrite <- Hcat at 2. now rewrite length_concat.
Qed.

Lemma report_partitions_group_witness :
  dict_get (playlists sample_data) "X" <> None
  /\ List.concat (batches (tracks_or_empty (dict_get (playlists sample_data) "X")))
     = tracks_or_empty (dict_get (playlists sample_data) "X").
Proof.
  split; [discriminate|].
  exact (proj1 (proj2 (proj2
    (report_partitions_group (playlists sample_data) "X"
       (tracks_or_empty (dict_get (playlists sample_data) "X")) eq_refl)))).
Defined.

(** C8. For a name that is not a group key, the report raises nothing: it
    prints the "not found" message and then exactly what the summary
    prints, and the stored grouping is left as it was. *)
Theorem report_unknown_falls_back
        (pls : grouping) (name : string) (Hunknown : contains pls name = false) :
  exists out,
    print_playlist_summary pls = (pls, out, Ok tt)
    /\ print_batch name pls = (pls, not_found_msg name :: out, Ok tt).
Proof.
  exists (summary_header ++ map summary_line (summary_rows pls) ++ summary_footer).
  split; [apply print_playlist_summary_run | now apply print_batch_unknown].
Qed.

Lemma report_unknown_falls_back_witness :
  contains (playlists sample_data) "Y" = false
  /\ exists out,
       print_playlist_summary (playlists sample_data)
       = (playlists sample_data, out, Ok tt)
       /\ print_batch "Y" (playlists sample_data)
          = (playlists sample_data, not_found_msg "Y" :: out, Ok tt).
Proof.
  split; [reflexivity|].
  exact (report_unknown_falls_back (playlists sample_data) "Y" eq_refl).
Defined.

(** C10. Every group of the grouping has at least one track: the summary
    reports for each group a track count and a batch count of at least 1,
    and the report of a known name prints at least one batch. *)
Theorem groups_are_nonempty (data : dict info) :
  let pls := playlists data in
  (forall g tracks, In (g, tracks) (items pls) ->
     tracks <> [] /\ exists t, In t (items data) /\ playlist_of t = g)
  /\ Forall (fun r => 1 <= snd (fst r) /\ 1 <= snd r) (summary_rows pls)
  /\ (forall name, contains pls name = true ->
        exists tracks more,
          getitem pls name = Ok tracks
          /\ batches tracks = slice tracks 0 6 :: more
          /\ slice tracks 0 6 <> []
          /\ print_batch name pls
             = (pls,
                report_header name ++ batch_output 1 (slice tracks 0 6)
                ++ List.concat (map (fun nb => batch_output (fst nb) (snd nb))
                     (combine (tl (batch_nums tracks)) more)),
                Ok tt)).
Proof.
  intros pls. split; [|split].
  - intros g tracks Hin. apply In_playlists in Hin as [Hne ->].
    split; [exact Hne|].
    destruct (filter (in_group g) data) as [|t l] eqn:E; [congruence|].
    exists t. assert (Ht : In t (filter (in_group g) data)) by (rewrite E; now left).
    apply filter_In in Ht as [Ht Hg]. split; [exact Ht|].
    now apply String.eqb_eq in Hg.
  - unfold summary_rows, summary_order. rewrite Forall_forall. intros r Hr.
    apply in_map_iff in Hr as [[g tracks] [<- Hx]]. simpl.
    assert (Hin : In (g, tracks) (playlists data)).
    { exact (Permutation_in _ (sorted_perm Z.ltb summary_key (items pls)) Hx). }
    apply In_playlists in Hin as [Hne _]. apply len_pos in Hne.
    split; [exact Hne|]. Z.to_euclidean_division_equations. lia.
  - intros name Hc. unfold contains in Hc.
    destruct (dict_get pls name) as [tracks|] eqn:E; [|discriminate].
    assert (Hne : tracks <> []).
    { apply dict_get_In in E. now apply In_playlists in E. }
    assert (Hstarts : exists rest, batch_starts tracks = 0 :: rest).
    { unfold batch_starts, len. rewrite range_by_six.
      pose proof (batch_total_bounds (length tracks)) as Hb.
      destruct tracks as [|t l]; [congruence|]. simpl length in *.
      destruct (batch_total (S (length l))) as [|m]; [lia|].
      simpl. eexists. reflexivity. }
    destruct Hstarts as [rest Hrest].
    exists tracks, (map (fun i => slice tracks i (i + 6)) rest).
    unfold getitem. rewrite E. split; [reflexivity|].
    split; [unfold batches; now rewrite Hrest|]. split.
    + rewrite slice_nonneg by lia. simpl.
      destruct tracks; [congruence | discriminate].
    + rewrite (print_batch_known pls name tracks E).
      unfold batch_nums. rewrite Hrest. simpl.
      rewrite combine_map_both, map_map. reflexivity.
Qed.

(** ** The order of the groups *)

Lemma Sorted_weaken {A : Type} (R R' : A -> A -> Prop) (l : list A) :
  (forall a b, R a b -> R' a b) -> Sorted R l -> Sorted R' l.
Proof.
  intros HR Hs. induction Hs as [|a l Hs IH Hhd]; constructor; [exact IH|].
  destruct Hhd; constructor. now apply HR.
Qed.

Lemma decorate_keys (pls : grouping) (l : list (string * list track)) :
  NoDup (keys pls) -> incl l (items pls) ->
  decorate (all_batches_key pls) (map fst l)
  = Ok (map (fun x => (summary_key x, fst x)) l).
Proof.
  intros Hnd. induction l as [|[g tracks] l IH]; intros Hincl; [reflexivity|].
  simpl. unfold all_batches_key at 1, getitem.
  rewrite (In_dict_get pls g tracks Hnd) by (apply Hincl; now left).
  rewrite IH; [reflexivity|]. intros x Hx. apply Hincl. now right.
Qed.

Lemma sorted_keys_order (pls : grouping) :
  NoDup (keys pls) ->
  sorted_r Z.ltb (all_batches_key pls) (keys pls)
  = Ok (map fst (sorted Z.ltb summary_key (items pls))).
Proof.
  intros Hnd. unfold sorted_r, keys.
  rewrite (decorate_keys pls pls Hnd) by apply incl_refl.
  f_equal. unfold sorted, items.
  rewrite <- (map_map (fun a => (summary_key a, a))
                      (fun y => (fst y, fst (snd y)))).
  rewrite <- sort_decorated_map_snd, !map_map. reflexivity.
Qed.

Lemma summary_names (pls : grouping) :
  map (fun r : string * Z * Z => fst (fst r)) (summary_rows pls)
  = map fst (summary_order pls).
Proof. unfold summary_rows. now rewrite map_map. Qed.

(** C9. The names [print_all_batches] goes through are the names of the
    lines of the summary, in the same order: by descending track count,
    groups of equal count in the order of the grouping. *)
Theorem report_all_in_summary_order (data : dict info) :
  let pls := playlists data in
  let names := map (fun r : string * Z * Z => fst (fst r)) (summary_rows pls) in
  print_playlist_summary pls
  = (pls, summary_header ++ map summary_line (summary_rows pls) ++ summary_footer,
     Ok tt)
  /\ sorted_r Z.ltb (all_batches_key pls) (keys pls) = Ok names
  /\ print_all_batches pls = for_each names print_batch pls
  /\ names = map fst (summary_order pls)
  /\ Sorted (fun x y => len (snd y) <= len (snd x)) (summary_order pls)
  /\ forall n,
       filter (fun x => len (snd x) =? n) (summary_order pls)
       = filter (fun x => len (snd x) =? n) (items pls).
Proof.
  intros pls names.
  assert (Horder : sorted_r Z.ltb (all_batches_key pls) (keys pls) = Ok names).
  { unfold names. rewrite summary_names.
    apply sorted_keys_order, keys_playlists_NoDup. }
  split; [apply print_playlist_summary_run|].
  split; [exact Horder|]. split; [|split; [apply summary_names|split]].
  - unfold print_all_batches, bind, get_state, lift. rewrite Horder.
    destruct (for_each names print_batch pls) as [[st out] r]. reflexivity.
  - unfold summary_order.
    apply Sorted_weaken with (R := fun a b => Z.ltb (summary_key b) (summary_key a) = false).
    + intros a b H. unfold summary_key in H. apply Z.ltb_ge in H. lia.
    + apply sorted_Sorted. intros a b H. apply Z.ltb_lt in H. apply Z.ltb_ge. lia.
  - intros n. unfold summary_order.
    pose proof (sorted_stable Z.ltb (fun k => k =? - n) summary_key (items pls)) as Hst.
    simpl in Hst.
    assert (Hext : forall a : string * list track,
               (len (snd a) =? n) = (summary_key a =? - n)).
    { intros a. unfold summary_key.
      destruct (Z.eqb_spec (len (snd a)) n), (Z.eqb_spec (- len (snd a)) (- n));
        try reflexivity; lia. }
    rewrite !(filter_ext _ _ Hext). apply Hst.
    intros a b Ha Hb. apply Z.eqb_eq in Ha, Hb. apply Z.ltb_ge. lia.
Qed.

(** ** Strings *)

Lemma append_assoc (a b c : string) : (a +++ b) +++ c = a +++ (b +++ c).
Proof. induction a as [|x a IH]; simpl; now f_equal. Qed.

Lemma append_nil_r (a : string) : a +++ EmptyString = a.
Proof. induction a as [|x a IH]; simpl; now f_equal. Qed.

Lemma length_append (a b : string) :
  String.length (a +++ b) = (String.length a + String.length b)%nat.
Proof. induction a as [|x a IH]; simpl; now f_equal. Qed.

Lemma append_inv_r (a b c : string) : a +++ b = a +++ c -> b = c.
Proof. induction a as [|x a IH]; simpl; intros H; [exact H|]. inversion H. auto. Qed.

Lemma append_inv_l (a b c : string) : a +++ c = b +++ c -> a = b.
Proof.
  revert b. induction a as [|x a IH]; intros [|y b] H; simpl in H.
  - reflexivity.
  - apply (f_equal String.length) in H. simpl in H.
    rewrite length_append in H. lia.
  - apply (f_equal String.length) in H. simpl in H.
    rewrite length_append in H. lia.
  - inversion H. f_equal. now apply IH.
Qed.

Lemma strip_prefix_app (p s : string) : strip_prefix p (p +++ s) = Some s.
Proof.
  induction p as [|a p IH]; simpl; [now destruct s|].
  now rewrite Ascii.eqb_refl.
Qed.

Lemma strip_prefix_Some (p s r : string) :
  strip_prefix p s = Some r -> s = p +++ r.
Proof.
  revert s. induction p as [|a p IH]; intros s H.
  - destruct s; simpl in H; now inversion H.
  - destruct s as [|b s]; simpl in H; [discriminate|].
    destruct (Ascii.eqb_spec a b) as [->|]; [|discriminate].
    simpl. f_equal. now apply IH.
Qed.

Lemma substring_prefix (a b : string) :
  substring 0 (String.length a) (a +++ b) = a.
Proof.
  induction a as [|x a IH]; simpl; [now destruct b | now f_equal].
Qed.

Lemma ltb_asym (a b : string) : String.ltb a b = true -> String.ltb b a = false.
Proof.
  unfold String.ltb. rewrite (String.compare_antisym b a).
  destruct (String.compare a b); simpl; congruence.
Qed.

Lemma ltb_not_ge (a b : string) :
  String.ltb b a = false -> a <> b -> String.ltb a b = true.
Proof.
  unfold String.ltb. rewrite (String.compare_antisym b a).
  destruct (String.compare a b) eqn:E; simpl; try congruence.
  intros _ Hne. now apply String.compare_eq_iff in E.
Qed.

(** ** The directory scan *)

Lemma endswith_wav (s : string) :
  endswith s ".wav" = true <-> exists x, s = x +++ ".wav".
Proof.
  split.
  - induction s as [|c s IH]; cbn [endswith].
    + discriminate.
    + intros H. apply orb_true_iff in H as [H|H].
      * apply String.eqb_eq in H. exists EmptyString. exact H.
      * destruct (IH H) as [x ->]. now exists (String c x).
  - intros [x ->]. induction x as [|c x IH]; [reflexivity|].
    simpl append. cbn [endswith]. rewrite IH. apply orb_true_r.
Qed.

Lemma rfind_wav (x : string) :
  rfind (x +++ ".wav") "." = Z.of_nat (String.length x).
Proof.
  induction x as [|c x IH]; [reflexivity|].
  simpl append. cbn [rfind]. rewrite IH.
  destruct (Z.leb_spec 0 (Z.of_nat (String.length x))); simpl String.length; lia.
Qed.

Lemma stem_wav (x : string) : x <> EmptyString -> stem (x +++ ".wav") = x.
Proof.
  intros Hx. unfold stem. rewrite rfind_wav, length_append. simpl String.length.
  assert (Hlen : (0 < String.length x)%nat) by (destruct x; [congruence | simpl; lia]).
  destruct (Z.ltb_spec 0 (Z.of_nat (String.length x))); [|lia].
  destruct (Z.ltb_spec (Z.of_nat (String.length x))
                       (Z.of_nat (String.length x + 4) - 1)); [|lia].
  simpl. rewrite Nat2Z.id. apply substring_prefix.
Qed.

Lemma Sorted_strict (l : list string) :
  Sorted (fun a b => String.ltb b a = false) l -> NoDup l ->
  Sorted (fun a b => String.ltb a b = true) l.
Proof.
  intros Hs. induction Hs as [|a l Hs IH Hhd]; intros Hnd; constructor.
  - apply IH. now inversion Hnd.
  - destruct Hhd as [|b l Hab]; constructor.
    apply ltb_not_ge; [exact Hab|]. intros ->.
    inversion Hnd as [|? ? Hin _]. apply Hin. now left.
Qed.

(** C7 (as amended). For a directory listing without an entry named
    ".wav", the scan returns the names, without their ".wav", of exactly
    the entries that end in ".wav": in strictly ascending order, hence
    without duplicates, one for each such entry. *)
Theorem collect_files_sorted_base_names
        (entries : list string)
        (Hlisting : NoDup entries) (Hdot : ~ In ".wav"%string entries) :
  let result := audio_files entries in
  Sorted (fun a b => String.ltb a b = true) result
  /\ NoDup result
  /\ (forall f, In f result <-> In (f +++ ".wav") entries)
  /\ Permutation result (map stem (glob_wav entries))
  /\ (forall name, In name (glob_wav entries) -> name = stem name +++ ".wav").
Proof.
  intros result.
  assert (Hglob : forall name, In name (glob_wav entries) ->
            exists x, x <> EmptyString /\ name = x +++ ".wav" /\ stem name = x).
  { intros name Hin. apply filter_In in Hin as [Hin He].
    apply endswith_wav in He as [x ->]. exists x.
    assert (Hx : x <> EmptyString) by (intros ->; now apply Hdot).
    split; [exact Hx|]. split; [reflexivity | now apply stem_wav]. }
  assert (Hperm : Permutation result (map stem (glob_wav entries))).
  { apply sorted_perm. }
  assert (Hnd : NoDup result).
  { apply (Permutation_NoDup (Permutation_sym Hperm)).
    apply NoDup_map_NoDup_ForallPairs; [|now apply NoDup_filter].
    intros a b Ha Hb Heq.
    destruct (Hglob a Ha) as [x [_ [-> Hx]]].
    destruct (Hglob b Hb) as [y [_ [-> Hy]]]. congruence. }
  split; [|split; [exact Hnd|split; [|split; [exact Hperm|]]]].
  - apply Sorted_strict; [|exact Hnd].
    apply (sorted_Sorted String.ltb ltb_asym (fun f => f)).
  - intros f. split.
    + intros Hin. apply (Permutation_in _ Hperm) in Hin.
      apply in_map_iff in Hin as [name [<- Hin]].
      destruct (Hglob name Hin) as [x [_ [E ->]]].
      rewrite <- E. now apply filter_In in Hin.
    + intros Hin. apply (Permutation_in _ (Permutation_sym Hperm)).
      apply in_map_iff. exists (f +++ ".wav").
      assert (Hf : f <> EmptyString) by (intros ->; now apply Hdot).
      split; [now apply stem_wav|]. apply filter_In. split; [exact Hin|].
      apply endswith_wav. now exists f.
  - intros name Hin. destruct (Hglob name Hin) as [x [_ [E ->]]]. exact E.
Qed.

Lemma collect_files_sorted_base_names_witness :
  NoDup sample_entries /\ ~ In ".wav"%string sample_entries
  /\ NoDup (audio_files sample_entries).
Proof.
  assert (Hnd : NoDup sample_entries).
  { unfold sample_entries. repeat constructor; simpl; intuition discriminate. }
  assert (Hdot : ~ In ".wav"%string sample_entries).
  { unfold sample_entries. simpl. intuition discriminate. }
  split; [exact Hnd|]. split; [exact Hdot|].
  exact (proj1 (proj2 (collect_files_sorted_base_names sample_entries Hnd Hdot))).
Defined.

(** C7 (as stated) fails on a listing with the entries ".wav" and
    ".wav.wav": both have the stem ".wav", which is returned twice. *)
Lemma collect_files_duplicate_stem :
  NoDup [".wav"; ".wav.wav"]%string
  /\ audio_files [".wav"; ".wav.wav"]%string = [".wav"; ".wav"]%string
  /\ ~ NoDup (audio_files [".wav"; ".wav.wav"]%string).
Proof.
  split; [|split].
  - repeat constructor; simpl; intuition discriminate.
  - reflexivity.
  - intros H. inversion H as [|? ? Hin _]. apply Hin. now left.
Qed.

(** ** The block pattern *)


Lemma span_not_app (c : ascii) (n r : string) :
  has_char c n = false -> span_not c (n +++ String c r) = (n, String c r).
Proof.
  induction n as [|a n IH]; simpl; intros H.
  - now rewrite Ascii.eqb_refl.
  - apply orb_false_iff in H as [Ha Hn]. rewrite Ha, (IH Hn). reflexivity.
Qed.

Lemma span_not_spec (c : ascii) (s n r : string) :
  span_not c s = (n, r) -> s = n +++ r /\ has_char c n = false.
Proof.
  revert n r. induction s as [|a s IH]; simpl; intros n r H.
  - inversion H. now split.
  - destruct (Ascii.eqb a c) eqn:E.
    + inversion H. now split.
    + destruct (span_not c s) as [n' r'] eqn:E'. inversion H; subst.
      destruct (IH n' r eq_refl) as [-> Hn]. simpl. now rewrite E.
Qed.

Lemma name_line_entry (f t : string) :
  f <> EmptyString -> has_char "'" f = false ->
  name_line (name_entry f +++ t) = Some (name_entry f, t).
Proof.
  intros Hne Hq. unfold name_line, name_entry.
  rewrite append_assoc, strip_prefix_app.
  rewrite append_assoc.
  change (("'," +++ nl) +++ t) with (String "'" (("," +++ nl) +++ t)).
  rewrite (span_not_app "'" f _ Hq).
  destruct f as [|a f]; [congruence|].
  change (String "'" (("," +++ nl) +++ t)) with (("'," +++ nl) +++ t).
  now rewrite strip_prefix_app.
Qed.

Lemma name_line_sound (s l r : string) :
  name_line s = Some (l, r) ->
  s = l +++ r
  /\ exists f, l = name_entry f /\ f <> EmptyString /\ has_char "'" f = false.
Proof.
  unfold name_line. destruct (strip_prefix "  '" s) as [r0|] eqn:E0; [|discriminate].
  destruct (span_not "'" r0) as [n r1] eqn:E1.
  destruct n as [|a n]; [discriminate|].
  destruct (strip_prefix ("'," +++ nl) r1) as [rest|] eqn:E2; [|discriminate].
  intros H. inversion H; subst.
  apply strip_prefix_Some in E0, E2. apply span_not_spec in E1 as [E1 Hq].
  split.
  - rewrite E0, E1, E2. unfold name_entry. now rewrite !append_assoc.
  - exists (String a n). split; [reflexivity|]. split; [discriminate | exact Hq].
Qed.

Lemma name_line_close (t : string) : name_line (close_marker +++ t) = None.
Proof. reflexivity. Qed.

Lemma entries_cons (f : string) (names : list string) :
  entries (f :: names) = name_entry f +++ entries names.
Proof. reflexivity. Qed.

Lemma name_lines_entries (names : list string) (fuel : nat) (t : string) :
  Forall quotable names -> (length names <= fuel)%nat ->
  name_lines fuel (entries names +++ close_marker +++ t)
  = (entries names, close_marker +++ t).
Proof.
  intros Hp. revert fuel. induction Hp as [|f names [Hne Hq] Hp IH]; intros fuel Hf.
  - destruct fuel; reflexivity.
  - destruct fuel as [|fuel]; [simpl in Hf; lia|].
    rewrite entries_cons, append_assoc. cbn [name_lines].
    rewrite (name_line_entry f _ Hne Hq).
    rewrite IH by (simpl in Hf; lia). reflexivity.
Qed.

Lemma name_lines_sound (fuel : nat) (s ls r : string) :
  name_lines fuel s = (ls, r) -> s = ls +++ r.
Proof.
  revert s ls r. induction fuel as [|fuel IH]; intros s ls r H; simpl in H.
  - now inversion H.
  - destruct (name_line s) as [[l r0]|] eqn:E; [|now inversion H].
    destruct (name_lines fuel r0) as [ls' r'] eqn:E'. inversion H; subst.
    apply name_line_sound in E as [-> _]. apply IH in E'. subst r0.
    now rewrite append_assoc.
Qed.

Lemma entries_length (names : list string) (t : string) :
  (length names <= String.length (entries names +++ t))%nat.
Proof.
  induction names as [|f names IH]; [simpl; lia|].
  rewrite entries_cons, append_assoc, length_append.
  unfold name_entry. simpl. lia.
Qed.

Lemma set_content_entries (names : list string) :
  set_content names = open_marker +++ entries names +++ close_marker.
Proof.
  unfold set_content. rewrite <- append_assoc. f_equal.
  generalize open_marker. induction names as [|f names IH]; intros init; simpl.
  - now rewrite append_nil_r.
  - now rewrite IH, append_assoc.
Qed.

Lemma block_match_set_content (names : list string) (t : string) :
  Forall quotable names ->
  block_match (set_content names +++ t) = Some (set_content names, t).
Proof.
  intros Hp. rewrite set_content_entries. unfold block_match.
  rewrite !append_assoc, strip_prefix_app.
  rewrite (name_lines_entries names _ t Hp).
  - now rewrite strip_prefix_app.
  - apply entries_length.
Qed.

Lemma block_match_sound (s m rest : string) :
  block_match s = Some (m, rest) ->
  s = m +++ rest /\ exists ls, m = open_marker +++ ls +++ close_marker.
Proof.
  unfold block_match.
  destruct (strip_prefix open_marker s) as [r|] eqn:E0; [|discriminate].
  destruct (name_lines (String.length r) r) as [ls r'] eqn:E1.
  destruct (strip_prefix close_marker r') as [rest'|] eqn:E2; [|discriminate].
  intros H.
  assert (Hm : m = open_marker +++ ls +++ close_marker) by congruence.
  assert (Hr : rest = rest') by congruence. clear H. subst m rest.
  apply strip_prefix_Some in E0, E2. apply name_lines_sound in E1.
  split; [|now exists ls].
  rewrite E0, E1, E2. now rewrite !append_assoc.
Qed.


(** ** The substitution *)

Lemma sub_scan_skip (tpl : list piece) (m rest : string) :
  sub_scan tpl (String.length m) (m +++ rest) = sub_scan tpl O rest.
Proof.
  induction m as [|c m IH]; simpl.
  - destruct rest; reflexivity.
  - exact IH.
Qed.

Lemma sub_scan_match (tpl : list piece) (s m rest : string) :
  block_match s = Some (m, rest) ->
  sub_scan tpl O s = expand tpl m +++ sub_scan tpl O rest.
Proof.
  intros H. destruct (block_match_sound s m rest H) as [Hs [ls Hm]].
  destruct m as [|c m]; [discriminate Hm|]. subst s. clear Hm.
  simpl append. cbn [sub_scan].
  change (String c (m +++ rest)) with (String c m +++ rest). rewrite H.
  replace (String.length (String c m) - 1)%nat with (String.length m)
    by (simpl; lia).
  now rewrite sub_scan_skip.
Qed.

Lemma sub_scan_no_match (tpl : list piece) (c : ascii) (s : string) :
  block_match (String c s) = None ->
  sub_scan tpl O (String c s) = String c (sub_scan tpl O s).
Proof. intros H. cbn [sub_scan]. now rewrite H. Qed.

(** A replacement string without a backslash stands for itself. *)
Lemma parse_template_literal (t : string) (fuel : nat) :
  has_char "\" t = false -> (String.length t <= fuel)%nat ->
  exists tpl, parse_template fuel t = Ok tpl /\ forall m, expand tpl m = t.
Proof.
  revert fuel. induction t as [|a t IH]; intros fuel Hb Hf.
  - exists []. split; [destruct fuel; reflexivity | reflexivity].
  - destruct fuel as [|fuel]; [simpl in Hf; lia|].
    simpl in Hb. apply orb_false_iff in Hb as [Ha Ht].
    destruct (IH fuel Ht) as [tpl [Hp He]]; [simpl in Hf; lia|].
    exists (Literal (String a EmptyString) :: tpl). split.
    + cbn [parse_template]. now rewrite Ha, Hp.
    + intros m. simpl. now rewrite He.
Qed.

Lemma re_sub_literal (repl content : string) :
  has_char "\" repl = false ->
  exists tpl,
    (forall m, expand tpl m = repl)
    /\ re_sub repl content = Ok (sub_scan tpl O content).
Proof.
  intros Hb. unfold re_sub, compile_template.
  destruct (parse_template_literal repl (String.length repl) Hb (Nat.le_refl _))
    as [tpl [-> He]].
  now exists tpl.
Qed.



(** ** The run of the script *)

Lemma sync_run (w : world) :
  let files := audio_files (audio_dir w) in
  sync w
  = match re_sub (set_content files) (playlist_file w) with
    | Raise e => (w, sync_prints files, Raise e)
    | Ok new_content =>
        if String.eqb new_content (playlist_file w)
        then (w, sync_prints files ++ [EmptyString; unchanged_msg], Ok tt)
        else (with_file w new_content,
              sync_prints files ++ [EmptyString; updated_msg (len files)],
              Ok tt)
    end.
Proof.
  intros files. unfold sync, sync_with, glob, read_file, write_file.
  unfold bind at 1. unfold bind at 1. unfold get_state at 1, ret at 1.
  fold (audio_files (audio_dir w)). fold files.
  unfold bind at 1, print at 1. unfold bind at 1.
  rewrite for_each_print.
  unfold bind at 1, print at 1. unfold bind at 1, print at 1.
  unfold bind at 1, print at 1. unfold bind at 1. unfold bind at 1.
  unfold get_state at 1, ret at 1. unfold bind at 1, lift.
  destruct (re_sub (set_content files) (playlist_file w)) as [new_content|e].
  - destruct (String.eqb new_content (playlist_file w)); simpl.
    + unfold sync_prints. simpl. now rewrite <- app_assoc.
    + unfold sync_prints, with_file. simpl. now rewrite <- app_assoc.
  - unfold sync_prints. simpl. reflexivity.
Qed.

(** ** The matcher finds what the pattern matches *)

Lemma matches_lit_inv (s x : string) : matches (Lit s) x -> x = s.
Proof. intros H. now inversion H. Qed.

Lemma matches_seq_inv (r1 r2 : regex) (x : string) :
  matches (Seq r1 r2) x ->
  exists x1 x2, x = x1 +++ x2 /\ matches r1 x1 /\ matches r2 x2.
Proof. intros H. inversion H; subst. now exists s1, s2. Qed.

Lemma matches_plus_not (c : ascii) (x : string) :
  matches (Plus (NotChar c)) x <-> x <> EmptyString /\ has_char c x = false.
Proof.
  split.
  - intros H. remember (Plus (NotChar c)) as r eqn:Er.
    induction H as [| | | | |r s H _|r s1 s2 H1 _ H2 IH2]; inversion Er; subst.
    + inversion H as [|c' a Ha| | | | |]; subst. split; [discriminate|].
      simpl. apply Ascii.eqb_neq in Ha. now rewrite Ha.
    + inversion H1 as [|c' a Ha| | | | |]; subst.
      destruct (IH2 eq_refl) as [_ Hc]. split; [discriminate|].
      simpl. apply Ascii.eqb_neq in Ha. now rewrite Ha.
  - intros [Hne Hc]. induction x as [|a x IH]; [congruence|].
    simpl in Hc. apply orb_false_iff in Hc as [Ha Hx].
    apply Ascii.eqb_neq in Ha.
    destruct x as [|b x].
    + apply m_plus_one. now constructor.
    + change (String a (String b x)) with (String a EmptyString +++ String b x).
      apply m_plus_cons; [now constructor|]. apply IH; [discriminate | exact Hx].
Qed.

Lemma matches_line (l : string) :
  matches line_re l <-> exists f, quotable f /\ l = name_entry f.
Proof.
  unfold line_re. split.
  - intros H. apply matches_seq_inv in H as [x1 [x2 [-> [H1 H2]]]].
    apply matches_seq_inv in H2 as [f [x3 [-> [Hf H3]]]].
    apply matches_lit_inv in H1, H3. subst.
    apply matches_plus_not in Hf. now exists f.
  - intros [f [Hf ->]]. unfold name_entry.
    apply m_seq; [constructor|]. apply m_seq; [|constructor].
    now apply matches_plus_not.
Qed.

Lemma matches_lines (x : string) :
  matches (Star line_re) x
  <-> exists names, Forall quotable names /\ x = entries names.
Proof.
  split.
  - intros H. remember (Star line_re) as r eqn:Er.
    induction H as [| | |r|r s1 s2 H1 _ H2 IH2| |]; inversion Er; subst.
    + now exists [].
    + apply matches_line in H1 as [f [Hf ->]].
      destruct (IH2 eq_refl) as [names [Hn ->]].
      exists (f :: names). split; [now constructor | reflexivity].
  - intros [names [Hn ->]]. induction Hn as [|f names Hf _ IH].
    + constructor.
    + rewrite entries_cons. apply m_star_cons; [|exact IH].
      apply matches_line. now exists f.
Qed.

Lemma matches_pattern (m : string) :
  matches pattern m
  <-> exists names, Forall quotable names /\ m = set_content names.
Proof.
  unfold pattern. split.
  - intros H. apply matches_seq_inv in H as [x1 [x2 [-> [H1 H2]]]].
    apply matches_seq_inv in H2 as [x3 [x4 [-> [H3 H4]]]].
    apply matches_lit_inv in H1, H4. subst.
    apply matches_lines in H3 as [names [Hn ->]].
    exists names. split; [exact Hn | now rewrite set_content_entries].
  - intros [names [Hn ->]]. rewrite set_content_entries.
    apply m_seq; [constructor|]. apply m_seq; [|constructor].
    apply matches_lines. now exists names.
Qed.

Lemma name_lines_names (fuel : nat) (s ls r : string) :
  name_lines fuel s = (ls, r) ->
  exists names, Forall quotable names /\ ls = entries names.
Proof.
  revert s ls r. induction fuel as [|fuel IH]; intros s ls r H; simpl in H.
  - inversion H. now exists [].
  - destruct (name_line s) as [[l r0]|] eqn:E; [|inversion H; now exists []].
    destruct (name_lines fuel r0) as [ls' r'] eqn:E'. inversion H; subst.
    apply name_line_sound in E as [_ [f [-> [Hne Hq]]]].
    destruct (IH _ _ _ E') as [names [Hn ->]].
    exists (f :: names). split; [|reflexivity].
    constructor; [now split | exact Hn].
Qed.

Lemma block_match_matches (s m rest : string) :
  block_match s = Some (m, rest) -> s = m +++ rest /\ matches pattern m.
Proof.
  intros H. split; [now apply block_match_sound in H|].
  unfold block_match in H.
  destruct (strip_prefix open_marker s) as [r|]; [|discriminate].
  destruct (name_lines (String.length r) r) as [ls r'] eqn:E1.
  destruct (strip_prefix close_marker r') as [rest'|]; [|discriminate].
  assert (Hm : m = open_marker +++ ls +++ close_marker) by congruence.
  apply name_lines_names in E1 as [names [Hn ->]].
  apply matches_pattern. exists names. split; [exact Hn|].
  now rewrite set_content_entries.
Qed.

Lemma matches_block_match (m rest : string) :
  matches pattern m -> block_match (m +++ rest) = Some (m, rest).
Proof.
  intros H. apply matches_pattern in H as [names [Hn ->]].
  now apply block_match_set_content.
Qed.

(** The matcher is the pattern: at the start of [s] it returns the one
    prefix of [s] that the pattern matches, and nothing when there is none. *)
Lemma block_match_correct (s m rest : string) :
  block_match s = Some (m, rest) <-> s = m +++ rest /\ matches pattern m.
Proof.
  split; [apply block_match_matches|].
  intros [-> H]. now apply matches_block_match.
Qed.

Lemma matches_pattern_length (m : string) :
  matches pattern m -> (37 <= String.length m)%nat.
Proof.
  intros H. apply matches_pattern in H as [names [_ ->]].
  rewrite set_content_entries, !length_append. simpl. lia.
Qed.

(** ** Running the substitution twice *)



Section Twice.
Variables (tpl : list piece) (names : list string).
Hypothesis names_quotable : Forall quotable names.
Hypothesis tpl_literal : forall m, expand tpl m = set_content names.



End Twice.




Lemma no_block_spec (s : string) :
  no_block s = true -> forall a b, s = a +++ b -> block_match b = None.
Proof.
  intros H a. revert s H. induction a as [|c a IH]; intros s H b Hs.
  - simpl in Hs. subst b.
    assert (Hh : negb (is_some (block_match s)) = true).
    { destruct s; cbn [no_block] in H; now apply andb_true_iff in H as [H _]. }
    now destruct (block_match s).
  - destruct s as [|c' s]; [discriminate|]. inversion Hs; subst.
    cbn [no_block] in H. apply andb_true_iff in H as [_ H].
    now apply (IH (a +++ b) H b).
Qed.

(** ** What the substitution replaces *)

Lemma sub_scan_first_match (tpl : list piece) (pre m post : string) :
  matches pattern m ->
  (forall a b m' t, pre = a +++ b -> b <> EmptyString ->
     b +++ m +++ post = m' +++ t -> ~ matches pattern m') ->
  sub_scan tpl O (pre +++ m +++ post)
  = pre +++ expand tpl m +++ sub_scan tpl O post.
Proof.
  intros Hm. induction pre as [|c pre IH]; intros Hfirst.
  - simpl append at 1. apply sub_scan_match. now apply matches_block_match.
  - simpl append. rewrite sub_scan_no_match.
    + f_equal. apply IH. intros a b m' t -> Hb. apply (Hfirst (String c a) b); auto.
    + destruct (block_match (String c (pre +++ m +++ post))) as [[m' t]|] eqn:E;
        [|reflexivity].
      apply block_match_matches in E as [E Hm'].
      exfalso. apply (Hfirst EmptyString (String c pre) m' t);
        [reflexivity | discriminate | exact E | exact Hm'].
Qed.

Lemma sub_scan_no_block (tpl : list piece) (s : string) :
  (forall a b, s = a +++ b -> block_match b = None) -> sub_scan tpl O s = s.
Proof.
  induction s as [|c s IH]; intros H; [reflexivity|].
  rewrite sub_scan_no_match by (apply (H EmptyString); reflexivity).
  f_equal. apply IH. intros a b ->. apply (H (String c a)). reflexivity.
Qed.

(** C3 (as amended). When the generated block has no backslash, the run
    replaces the first match of the pattern in the target by the block,
    keeps the text before it, and treats the text after it in the same
    way: every match the left-to-right scan meets is replaced, not only
    one. *)
Theorem sync_replaces_every_match (w : world) (pre m post : string)
        (Htpl : has_char "\" (set_content (audio_files (audio_dir w))) = false)
        (Hfile : playlist_file w = pre +++ m +++ post)
        (Hm : matches pattern m)
        (Hfirst : forall a b m' t, pre = a +++ b -> b <> EmptyString ->
                    b +++ m +++ post = m' +++ t -> ~ matches pattern m') :
  exists out w' printed,
    re_sub (set_content (audio_files (audio_dir w))) post = Ok out
    /\ sync w = (w', printed, Ok tt)
    /\ playlist_file w'
       = pre +++ set_content (audio_files (audio_dir w)) +++ out.
Proof.
  set (block := set_content (audio_files (audio_dir w))) in *.
  assert (Hsub : exists out, re_sub block post = Ok out
            /\ re_sub block (playlist_file w) = Ok (pre +++ block +++ out)).
  { unfold re_sub, compile_template.
    destruct (parse_template_literal block _ Htpl (Nat.le_refl _)) as [tpl [-> He]].
    exists (sub_scan tpl O post). split; [reflexivity|].
    rewrite Hfile, (sub_scan_first_match tpl pre m post Hm Hfirst).
    now rewrite He. }
  destruct Hsub as [out [Hpost Hall]]. exists out.
  pose proof (sync_run w) as Hrun. cbv zeta in Hrun. fold block in Hrun.
  rewrite Hall in Hrun.
  destruct (String.eqb_spec (pre +++ block +++ out) (playlist_file w)) as [Heq|Hne].
  - exists w. eexists. split; [exact Hpost|]. split; [exact Hrun | now symmetry].
  - eexists. eexists. split; [exact Hpost|]. split; [exact Hrun | reflexivity].
Qed.

Lemma matches_empty_block : matches pattern empty_block.
Proof. apply matches_pattern. exists []. split; [constructor | reflexivity]. Qed.

Lemma sync_replaces_every_match_witness :
  has_char "\" (set_content (audio_files (audio_dir two_blocks_world))) = false
  /\ playlist_file two_blocks_world
     = EmptyString +++ empty_block +++ (nl +++ empty_block)
  /\ matches pattern empty_block
  /\ exists out w' printed,
       re_sub (set_content (audio_files (audio_dir two_blocks_world)))
              (nl +++ empty_block) = Ok out
       /\ sync two_blocks_world = (w', printed, Ok tt)
       /\ playlist_file w'
          = EmptyString
            +++ set_content (audio_files (audio_dir two_blocks_world)) +++ out.
Proof.
  split; [reflexivity|]. split; [reflexivity|]. split; [exact matches_empty_block|].
  apply (sync_replaces_every_match two_blocks_world EmptyString empty_block
           (nl +++ empty_block)).
  - reflexivity.
  - reflexivity.
  - exact matches_empty_block.
  - intros a b m' t Hpre Hb. destruct a; simpl in Hpre; [|discriminate].
    subst b. now elim Hb.
Defined.

(** C3 (as stated) fails on a target with two blocks: both are replaced,
    and the new text is not the old one with a single match replaced. *)
Lemma sync_replaces_both_blocks :
  let block := set_content ["a"%string] in
  matches pattern empty_block
  /\ sync two_blocks_world
     = (with_file two_blocks_world (block +++ nl +++ block),
        sync_prints ["a"%string] ++ [EmptyString; updated_msg 1],
        Ok tt)
  /\ ~ replaces_one (playlist_file two_blocks_world) block
                    (block +++ nl +++ block).
Proof.
  intros block. split; [exact matches_empty_block|]. split; [reflexivity|].
  intros [pre [m [post [Hc [Hm Hn]]]]]. subst block.
  apply matches_pattern_length in Hm.
  apply (f_equal String.length) in Hc, Hn.
  rewrite !length_append in Hc. rewrite !length_append in Hn.
  simpl in Hc, Hn. lia.
Qed.

(** ** Writes *)

(** In the text layer, a run hands at most one text to the write, and
    only a text that differs from the one it read; the audio directory is
    never changed. *)
Theorem sync_write_discipline (w : world) :
  let block := set_content (audio_files (audio_dir w)) in
  forall w' printed r, sync w = (w', printed, r) ->
    audio_dir w' = audio_dir w
    /\ ((w' = w /\ (r = Ok tt -> re_sub block (playlist_file w) = Ok (playlist_file w)
                               /\ In unchanged_msg printed))
        \/ (r = Ok tt /\ writes w' = S (writes w)
            /\ re_sub block (playlist_file w) = Ok (playlist_file w')
            /\ playlist_file w' <> playlist_file w)).
Proof.
  intros block w' printed r Hrun. rewrite sync_run in Hrun. cbv zeta in Hrun.
  fold block in Hrun.
  destruct (re_sub block (playlist_file w)) as [new_content|e] eqn:E.
  - destruct (String.eqb_spec new_content (playlist_file w)) as [Heq|Hne].
    + assert (Hw : w' = w) by congruence.
      assert (Hp : printed = sync_prints (audio_files (audio_dir w))
                             ++ [EmptyString; unchanged_msg]) by congruence.
      subst w' printed. split; [reflexivity|]. left. split; [reflexivity|].
      intros _. split; [now rewrite <- Heq|].
      apply in_or_app. right. simpl. tauto.
    + assert (Hw : w' = with_file w new_content) by congruence.
      assert (Hr : r = Ok tt) by congruence.
      subst w' r. split; [reflexivity|]. right. now repeat split.
  - assert (Hw : w' = w) by congruence. assert (Hr : r = Raise e) by congruence.
    subst w' r. split; [reflexivity|]. left.
    split; [reflexivity | discriminate].
Qed.

(** X17. When the generated block has no backslash and nothing in the
    target matches the pattern, the run reports that nothing changed and
    does not write. *)
Theorem sync_no_match_no_change (w : world) :
  has_char "\" (set_content (audio_files (audio_dir w))) = false ->
  (forall a b, playlist_file w = a +++ b -> block_match b = None) ->
  sync w
  = (w, sync_prints (audio_files (audio_dir w)) ++ [EmptyString; unchanged_msg],
     Ok tt).
Proof.
  intros Htpl Hno. rewrite sync_run. cbv zeta.
  destruct (re_sub_literal _ (playlist_file w) Htpl) as [tpl [_ ->]].
  rewrite (sub_scan_no_block tpl _ Hno). now rewrite String.eqb_refl.
Qed.

(** C4. A file named [\1.wav] makes the generated block an invalid
    replacement template: on a target without any block the run raises
    while compiling it, and never reports that nothing changed.  The file
    is not written. *)
Theorem sync_bad_template_raises :
  no_block (playlist_file bad_name_world) = true
  /\ sync bad_name_world
     = (bad_name_world, sync_prints [String "\" "1"],
        Raise (ReError "invalid group reference"))
  /\ ~ In unchanged_msg (sync_prints [String "\" "1"]).
Proof.
  split; [reflexivity|]. split; [reflexivity|].
  simpl. intros [H|[H|[H|[H|[H|[]]]]]]; discriminate H.
Qed.

(** * Further properties of the batch reporter *)

(** ** One turn of the grouping loop *)

(** X1. After the turn of the loop for a record, the group of the record
    holds what it held before (nothing when it is new) followed by the
    record, every other group is as before, and a new group name goes
    last in the dictionary. *)
Theorem group_step_appends (d : grouping) (t : track) :
  dict_get (group_step d t) (playlist_of t)
  = Some (tracks_or_empty (dict_get d (playlist_of t)) ++ [t])
  /\ (forall g, g <> playlist_of t -> dict_get (group_step d t) g = dict_get d g)
  /\ keys (group_step d t)
     = if contains d (playlist_of t) then keys d else keys d ++ [playlist_of t].
Proof.
  split; [|split].
  - rewrite dict_get_group_step. unfold in_group. now rewrite String.eqb_refl.
  - intros g Hg. rewrite dict_get_group_step. unfold in_group.
    destruct (String.eqb_spec (playlist_of t) g); congruence.
  - apply keys_group_step.
Qed.

Lemma first_seen_snoc (l : list string) (x : string) :
  first_seen (l ++ [x])
  = if existsb (String.eqb x) l then first_seen l else first_seen l ++ [x].
Proof.
  induction l as [|y l IH]; [reflexivity|].
  simpl. rewrite IH. destruct (String.eqb_spec x y) as [->|Hxy]; simpl.
  - destruct (existsb (String.eqb y) l); [reflexivity|].
    rewrite filter_app. simpl. rewrite String.eqb_refl. simpl.
    now rewrite app_nil_r.
  - destruct (existsb (String.eqb x) l); [reflexivity|].
    rewrite filter_app. simpl.
    destruct (String.eqb_spec x y); [congruence | reflexivity].
Qed.

Lemma contains_playlists (data : dict info) (g : string) :
  contains (playlists data) g = existsb (String.eqb g) (map playlist_of data).
Proof.
  unfold contains. rewrite dict_get_playlists.
  induction data as [|t data IH]; [reflexivity|].
  simpl. unfold in_group at 1. rewrite (String.eqb_sym (playlist_of t) g).
  destruct (String.eqb g (playlist_of t)); simpl; [reflexivity | exact IH].
Qed.

(** X2. The group names stand in the dictionary in the order in which the
    playlists first appear in the loaded mapping. *)
Theorem group_names_in_order_of_first_appearance (data : dict info) :
  keys (playlists data) = first_seen (map playlist_of (items data)).
Proof.
  unfold items. induction data as [|t data IH] using rev_ind; [reflexivity|].
  rewrite playlists_snoc, keys_group_step, map_app.
  change (map playlist_of [t]) with [playlist_of t].
  rewrite first_seen_snoc, contains_playlists, IH. reflexivity.
Qed.

(** ** Counts *)

Lemma zsum_app (l1 l2 : list Z) : zsum (l1 ++ l2) = zsum l1 + zsum l2.
Proof. induction l1 as [|x l1 IH]; simpl; [reflexivity|]. rewrite IH. lia. Qed.

Lemma zsum_perm (l1 l2 : list Z) : Permutation l1 l2 -> zsum l1 = zsum l2.
Proof. induction 1; simpl; lia. Qed.

Lemma zsum_update (d : grouping) (k : string) (t : track) :
  zsum (map (fun x => len (snd x)) (update d k (fun tracks => tracks ++ [t])))
  = zsum (map (fun x => len (snd x)) d) + (if contains d k then 1 else 0).
Proof.
  unfold contains. induction d as [|[k' v] d IH]; [reflexivity|].
  simpl. destruct (String.eqb k' k); simpl.
  - unfold len. rewrite length_app. simpl. lia.
  - rewrite IH. destruct (dict_get d k); lia.
Qed.

Lemma zsum_group_step (d : grouping) (t : track) :
  zsum (map (fun x => len (snd x)) (group_step d t))
  = zsum (map (fun x => len (snd x)) d) + 1.
Proof.
  destruct t as [pid i]. unfold group_step. rewrite zsum_update.
  unfold setdefault.
  destruct (contains d (get (playlist i) "Uncategorized")) eqn:E.
  - now rewrite E.
  - rewrite map_app, zsum_app. simpl.
    replace (contains (d ++ [(get (playlist i) "Uncategorized", [])])
                      (get (playlist i) "Uncategorized")) with true; [lia|].
    symmetry. unfold contains. rewrite dict_get_app. simpl.
    rewrite String.eqb_refl. now destruct (dict_get d _).
Qed.

(** X3. What the summary prints between its fixed header and footer is
    one line per group, and the track counts on these lines add up to the
    number of loaded records. *)
Theorem summary_counts_add_up (data : dict info) :
  let pls := playlists data in
  let rows := summary_rows pls in
  print_playlist_summary pls
  = (pls, summary_header ++ map summary_line rows ++ summary_footer, Ok tt)
  /\ length rows = length (keys pls)
  /\ zsum (map (fun r => snd (fst r)) rows) = len (items data).
Proof.
  intros pls rows. split; [apply print_playlist_summary_run|].
  unfold rows, pls, summary_rows, summary_order. split.
  - rewrite length_map. unfold keys. rewrite length_map.
    apply Permutation_length, sorted_perm.
  - rewrite map_map. simpl.
    rewrite (zsum_perm _ (map (fun x => len (snd x)) (playlists data)))
      by (apply Permutation_map, sorted_perm).
    unfold items. induction data as [|t data IH] using rev_ind; [reflexivity|].
    rewrite playlists_snoc, zsum_group_step, IH. unfold len.
    rewrite length_app. simpl. lia.
Qed.

Lemma len_batches (tracks : list track) :
  len (batches tracks) = (len tracks + 5) / 6.
Proof.
  unfold len at 1. rewrite batches_by_six, length_map, length_seq.
  unfold batch_total, len. rewrite Nat2Z.inj_div. f_equal. lia.
Qed.

(** X4. The summary and the report agree on the number of batches: among
    the lines the summary prints is the line of the group with its track
    count and, as batch count, the number of batches that the report of
    that group prints. *)
Theorem summary_and_report_agree
        (data : dict info) (g : string) (tracks : list track)
        (Hgroup : dict_get (playlists data) g = Some tracks) :
  let pls := playlists data in
  print_playlist_summary pls
  = (pls, summary_header ++ map summary_line (summary_rows pls) ++ summary_footer,
     Ok tt)
  /\ print_batch g pls = (pls, report_output g tracks, Ok tt)
  /\ length (combine (batch_nums tracks) (batches tracks)) = length (batches tracks)
  /\ In (g, len tracks, len (batches tracks)) (summary_rows pls)
  /\ In (summary_line (g, len tracks, len (batches tracks)))
        (map summary_line (summary_rows pls)).
Proof.
  intros pls.
  assert (Hrow : In (g, len tracks, len (batches tracks)) (summary_rows pls)).
  { rewrite len_batches. unfold summary_rows, summary_order.
    apply in_map_iff. exists (g, tracks). split; [reflexivity|].
    apply (Permutation_in _ (Permutation_sym (sorted_perm Z.ltb summary_key (items pls)))).
    now apply dict_get_In. }
  split; [apply print_playlist_summary_run|].
  split; [|split; [|split; [exact Hrow | now apply in_map]]].
  - rewrite (print_batch_known pls g tracks Hgroup). unfold report_output.
    unfold batch_nums, batches. rewrite combine_map_both, map_map. reflexivity.
  - rewrite length_combine. unfold batch_nums, batches. rewrite !length_map.
    apply Nat.min_id.
Qed.

Lemma summary_and_report_agree_witness :
  dict_get (playlists sample_data) "X" <> None
  /\ In ("X"%string, 2, 1) (summary_rows (playlists sample_data)).
Proof.
  split; [discriminate|].
  exact (proj1 (proj2 (proj2 (proj2 (summary_and_report_agree sample_data "X"
           (tracks_or_empty (dict_get (playlists sample_data) "X")) eq_refl))))).
Defined.

(** X7. Records without a playlist and records whose playlist is
    "Uncategorized" end up in one and the same group. *)
Theorem uncategorized_group (data : dict info) :
  dict_get (playlists data) "Uncategorized"
  = nonempty_group (filter uncategorized (items data)).
Proof.
  rewrite dict_get_playlists. unfold items. f_equal. apply filter_ext.
  intros [pid i]. unfold in_group, playlist_of, uncategorized. simpl.
  destruct (playlist i); reflexivity.
Qed.

(** ** All reports *)

Lemma for_each_in {St A : Type} (body : A -> M St unit) (g : A -> list string)
      (l : list A) (st : St) :
  (forall a, In a l -> body a st = (st, g a, Ok tt)) ->
  for_each l body st = (st, List.concat (map g l), Ok tt).
Proof.
  induction l as [|a l IH]; intros Hbody; [reflexivity|].
  simpl. unfold bind. rewrite (Hbody a) by now left.
  rewrite IH; [reflexivity|]. intros a' Ha'. apply Hbody. now right.
Qed.

Lemma print_all_batches_run (pls : grouping) :
  NoDup (keys pls) ->
  print_all_batches pls
  = (pls,
     List.concat (map (fun x => report_output (fst x) (snd x)) (summary_order pls)),
     Ok tt).
Proof.
  intros Hnd. unfold print_all_batches, bind, get_state, lift.
  rewrite (sorted_keys_order pls Hnd).
  assert (Hget : forall x, In x (summary_order pls) ->
            dict_get pls (fst x) = Some (snd x)).
  { intros [g tracks] Hx. apply (In_dict_get pls g tracks Hnd).
    exact (Permutation_in _ (sorted_perm Z.ltb summary_key (items pls)) Hx). }
  fold (summary_order pls).
  rewrite (for_each_in print_batch
             (fun name => report_output name (tracks_or_empty (dict_get pls name)))).
  - rewrite map_map. simpl. f_equal. f_equal. f_equal.
    apply map_ext_in. intros x Hx. now rewrite (Hget x Hx).
  - intros name Hname. apply in_map_iff in Hname as [x [<- Hx]].
    rewrite (Hget x Hx). simpl.
    rewrite (print_batch_known pls (fst x) (snd x) (Hget x Hx)).
    unfold report_output, batch_nums, batches.
    rewrite combine_map_both, map_map. reflexivity.
Qed.

(** X5. For every loaded mapping, [print_all_batches] raises nothing and
    prints, for the groups in the order of the summary, the report of each
    group, one after the other, and nothing else: the lookup in its sort
    key never fails and the "not found" branch is never taken. *)
Theorem report_all_prints_every_report (data : dict info) :
  let pls := playlists data in
  print_all_batches pls
  = (pls,
     List.concat (map (fun x => report_output (fst x) (snd x)) (summary_order pls)),
     Ok tt)
  /\ Permutation (summary_order pls) (items pls).
Proof.
  intros pls. split.
  - apply print_all_batches_run, keys_playlists_NoDup.
  - apply sorted_perm.
Qed.

(** X6. Whatever the command line, the script raises nothing on a loaded
    mapping and leaves the grouping as it is: without an argument it
    prints the summary, with [--all] first all reports, and otherwise the
    report (or the fallback) of the arguments joined by spaces. *)
Theorem main_runs_to_completion (data : dict info) (argv : list string) :
  let pls := playlists data in
  exists out,
    main argv pls = (pls, out, Ok tt)
    /\ (argv = [] -> print_playlist_summary pls = (pls, out, Ok tt))
    /\ (forall rest, argv = "--all"%string :: rest ->
          print_all_batches pls = (pls, out, Ok tt))
    /\ (forall a rest, argv = a :: rest -> a <> "--all"%string ->
          print_batch (String.concat " " argv) pls = (pls, out, Ok tt)).
Proof.
  intros pls. destruct argv as [|a rest].
  - eexists. split; [apply print_playlist_summary_run|].
    split; [intros _; apply print_playlist_summary_run|].
    split; [discriminate | discriminate].
  - cbn [main]. destruct (String.eqb_spec a "--all") as [->|Hne].
    + eexists. split; [apply print_all_batches_run, keys_playlists_NoDup|].
      split; [discriminate|].
      split; [intros; apply print_all_batches_run, keys_playlists_NoDup|].
      intros a rest' H Ha. congruence.
    + assert (Hrun : exists out,
                print_batch (String.concat " " (a :: rest)) pls = (pls, out, Ok tt)).
      { destruct (dict_get pls (String.concat " " (a :: rest))) as [tracks|] eqn:E.
        - eexists. apply (print_batch_known pls _ tracks E).
        - eexists. apply print_batch_unknown. unfold contains. now rewrite E. }
      destruct Hrun as [out Hrun]. exists out.
      split; [exact Hrun|]. split; [discriminate|].
      split; [intros rest' H; congruence | intros; exact Hrun].
Qed.

(** * Further properties of the synchroniser *)

(** ** The order of the collected names *)

Lemma ltb_trans (a b c : string) :
  String.ltb a b = true -> String.ltb b c = true -> String.ltb a c = true.
Proof.
  unfold String.ltb. intros Hab Hbc.
  assert (Hab' : String.compare a b = Lt) by (destruct (String.compare a b); congruence).
  assert (Hbc' : String.compare b c = Lt) by (destruct (String.compare b c); congruence).
  apply OrderedTypeEx.String_as_OT.cmp_lt in Hab', Hbc'.
  pose proof (OrderedTypeEx.String_as_OT.lt_trans _ _ _ Hab' Hbc') as Hac.
  apply OrderedTypeEx.String_as_OT.cmp_lt in Hac.
  unfold OrderedTypeEx.String_as_OT.cmp in Hac. now rewrite Hac.
Qed.

Lemma str_le_trans (a b c : string) : str_le a b -> str_le b c -> str_le a c.
Proof.
  unfold str_le. intros Hab Hbc.
  destruct (String.ltb c a) eqn:Hca; [|reflexivity].
  destruct (string_dec a b) as [->|Hne]; [congruence|].
  pose proof (ltb_not_ge a b Hab Hne) as Hlt.
  pose proof (ltb_trans c a b Hca Hlt). congruence.
Qed.

Lemma str_le_antisym (a b : string) : str_le a b -> str_le b a -> a = b.
Proof.
  unfold str_le. intros Hab Hba.
  destruct (string_dec a b) as [Heq|Hne]; [exact Heq|].
  pose proof (ltb_not_ge a b Hab Hne). congruence.
Qed.

Lemma sorted_strings_unique (l1 l2 : list string) :
  StronglySorted str_le l1 -> StronglySorted str_le l2 ->
  Permutation l1 l2 -> l1 = l2.
Proof.
  intros H1. revert l2. induction H1 as [|x l1 Hs1 IH Hx]; intros l2 H2 Hp.
  - now apply Permutation_nil in Hp.
  - destruct H2 as [|y l2 Hs2 Hy].
    + apply Permutation_sym, Permutation_nil in Hp. discriminate.
    + assert (Hxy : x = y).
      { assert (Hin1 : In x (y :: l2)) by (apply (Permutation_in _ Hp); now left).
        assert (Hin2 : In y (x :: l1))
          by (apply (Permutation_in _ (Permutation_sym Hp)); now left).
        destruct Hin1 as [->|Hin1]; [reflexivity|].
        destruct Hin2 as [->|Hin2]; [reflexivity|].
        rewrite Forall_forall in Hx, Hy.
        apply str_le_antisym; [now apply Hx | now apply Hy]. }
      subst y. f_equal. apply IH; [exact Hs2|].
      now apply Permutation_cons_inv in Hp.
Qed.

Lemma audio_files_sorted (entries : list string) :
  StronglySorted str_le (audio_files entries).
Proof.
  apply Sorted_StronglySorted; [exact str_le_trans|].
  exact (sorted_Sorted String.ltb ltb_asym (fun f => f) _).
Qed.

(** X8. For every directory listing, the collected names are in ascending
    order (equal names allowed) and are the stems of the entries that end
    in ".wav", one for each such entry. *)
Theorem collect_files_any_listing (entries : list string) :
  StronglySorted str_le (audio_files entries)
  /\ Permutation (audio_files entries) (map stem (glob_wav entries))
  /\ len (audio_files entries) = len (glob_wav entries)
  /\ forall name, In name (glob_wav entries)
       <-> In name entries /\ exists x, name = x +++ ".wav".
Proof.
  split; [apply audio_files_sorted|].
  assert (Hp : Permutation (audio_files entries) (map stem (glob_wav entries)))
    by apply sorted_perm.
  split; [exact Hp|]. split.
  - unfold len. rewrite (Permutation_length Hp). now rewrite length_map.
  - intros name. unfold glob_wav. rewrite filter_In, endswith_wav. reflexivity.
Qed.

Lemma filter_perm {A : Type} (f : A -> bool) (l1 l2 : list A) :
  Permutation l1 l2 -> Permutation (filter f l1) (filter f l2).
Proof.
  induction 1 as [|x l1 l2 _ IH|x y l|l1 l2 l3 _ IH1 _ IH2]; simpl.
  - constructor.
  - destruct (f x); [now constructor | exact IH].
  - destruct (f x), (f y); try reflexivity. apply perm_swap.
  - now transitivity (filter f l2).
Qed.

(** X9. The collected names do not depend on the order in which the
    directory lists its entries, nor on the entries that do not end in
    ".wav": two listings with the same ".wav" entries give the same list. *)
Theorem collect_files_order_independent (entries1 entries2 : list string)
        (Hsame : Permutation (glob_wav entries1) (glob_wav entries2)) :
  audio_files entries1 = audio_files entries2.
Proof.
  apply sorted_strings_unique; try apply audio_files_sorted.
  transitivity (map stem (glob_wav entries1)); [apply sorted_perm|].
  transitivity (map stem (glob_wav entries2));
    [now apply Permutation_map | symmetry; apply sorted_perm].
Qed.

Lemma collect_files_order_independent_witness :
  Permutation (glob_wav sample_entries) (glob_wav ["a.wav"; "b.wav"; "readme"]%string)
  /\ audio_files sample_entries = audio_files ["a.wav"; "b.wav"; "readme"]%string.
Proof.
  assert (H : Permutation (glob_wav sample_entries)
                          (glob_wav ["a.wav"; "b.wav"; "readme"]%string)).
  { change (Permutation ["b.wav"; "a.wav"] ["a.wav"; "b.wav"])%string.
    apply perm_swap. }
  split; [exact H|].
  exact (collect_files_order_independent sample_entries _ H).
Defined.

(** X10. The stem of an entry that ends in ".wav" is the entry without
    these four characters, unless the entry is ".wav" itself, whose stem
    is the whole name. *)
Theorem stem_strips_wav (name : string)
        (Hwav : endswith name ".wav" = true) :
  (name <> ".wav"%string -> stem name +++ ".wav" = name)
  /\ (name = ".wav"%string -> stem name = name).
Proof.
  apply endswith_wav in Hwav as [x ->]. split.
  - intros Hne. rewrite stem_wav; [reflexivity|]. intros ->. now apply Hne.
  - intros H. rewrite H. reflexivity.
Qed.

Lemma stem_strips_wav_witness :
  endswith "a.wav" ".wav" = true /\ stem "a.wav" +++ ".wav" = "a.wav"%string.
Proof.
  split; [reflexivity|].
  apply (proj1 (stem_strips_wav "a.wav" eq_refl)). discriminate.
Defined.

(** ** The generated block and the pattern *)

(** X11. The pattern matches exactly the blocks the script generates for
    names that are not empty and have no quote: such a block is matched
    whole wherever it stands, and every text the pattern matches is the
    block of such a list of names. *)
Theorem pattern_matches_generated_blocks (m : string) :
  matches pattern m
  <-> exists names,
        Forall quotable names /\ m = set_content names
        /\ forall t, block_match (m +++ t) = Some (m, t).
Proof.
  split.
  - intros H. pose proof H as H'. apply matches_pattern in H' as [names [Hn ->]].
    exists names. split; [exact Hn|]. split; [reflexivity|].
    intros t. now apply block_match_set_content.
  - intros [names [Hn [-> _]]]. apply matches_pattern. now exists names.
Qed.

(** X12. At a given place of a text the pattern matches at most one
    substring: two matches that start together end together. *)
Theorem match_at_a_place_is_unique (m1 m2 r1 r2 : string)
        (H1 : matches pattern m1) (H2 : matches pattern m2)
        (Hsame : m1 +++ r1 = m2 +++ r2) :
  m1 = m2 /\ r1 = r2.
Proof.
  pose proof (matches_block_match m1 r1 H1) as E1.
  pose proof (matches_block_match m2 r2 H2) as E2.
  rewrite Hsame in E1. rewrite E1 in E2.
  split; congruence.
Qed.

Lemma match_at_a_place_is_unique_witness :
  matches pattern empty_block
  /\ (empty_block = empty_block /\ nl = nl).
Proof.
  split; [exact matches_empty_block|].
  exact (match_at_a_place_is_unique empty_block empty_block nl nl
           matches_empty_block matches_empty_block eq_refl).
Defined.

Lemma name_entry_inj (f g : string) : name_entry f = name_entry g -> f = g.
Proof.
  unfold name_entry. intros H. apply append_inv_r in H.
  now apply append_inv_l in H.
Qed.

Lemma entries_inj (names1 names2 : list string) (t : string) :
  Forall quotable names1 -> Forall quotable names2 ->
  entries names1 +++ close_marker +++ t = entries names2 +++ close_marker +++ t ->
  names1 = names2.
Proof.
  intros H1. revert names2.
  induction H1 as [|f names1 [Hf Hq] _ IH]; intros names2 H2 Heq.
  - destruct H2 as [|g names2 _ _]; [reflexivity|].
    rewrite entries_cons in Heq. unfold name_entry in Heq. discriminate.
  - destruct H2 as [|g names2 [Hg Hq'] H2].
    + rewrite entries_cons in Heq. unfold name_entry in Heq. discriminate.
    + rewrite !entries_cons, !append_assoc in Heq.
      pose proof (name_line_entry f (entries names1 +++ close_marker +++ t) Hf Hq) as E1.
      pose proof (name_line_entry g (entries names2 +++ close_marker +++ t) Hg Hq') as E2.
      rewrite Heq in E1. rewrite E1 in E2.
      assert (Hfg : name_entry f = name_entry g) by congruence.
      assert (Hrest : entries names1 +++ close_marker +++ t
                      = entries names2 +++ close_marker +++ t) by congruence.
      f_equal; [now apply name_entry_inj | now apply IH].
Qed.

(** X13. The generated block determines the list of names: two lists of
    names without quotes (and not empty) that give the same block are the
    same list. *)
Theorem set_content_determines_names (names1 names2 : list string)
        (H1 : Forall quotable names1) (H2 : Forall quotable names2)
        (Hsame : set_content names1 = set_content names2) :
  names1 = names2.
Proof.
  rewrite !set_content_entries in Hsame. apply append_inv_r in Hsame.
  apply (entries_inj names1 names2 EmptyString H1 H2).
  now rewrite !append_nil_r.
Qed.

Lemma set_content_determines_names_witness :
  Forall quotable ["a"; "b"]%string
  /\ set_content (audio_files sample_entries) = set_content ["a"; "b"]%string
  /\ audio_files sample_entries = ["a"; "b"]%string.
Proof.
  assert (H : Forall quotable ["a"; "b"]%string)
    by (repeat constructor; discriminate).
  split; [exact H|]. split; [reflexivity|].
  exact (set_content_determines_names (audio_files sample_entries) _ H H eq_refl).
Defined.

(** ** Runs of the synchroniser *)


Lemma match_starts_in_spec (pre rest : string) :
  match_starts_in pre rest = false ->
  forall a b, pre = a +++ b -> b <> EmptyString -> block_match (b +++ rest) = None.
Proof.
  intros H a. revert pre H. induction a as [|c a IH]; intros pre H b Hpre Hb.
  - simpl in Hpre. subst b. destruct pre as [|c pre]; [congruence|].
    cbn [match_starts_in] in H. apply orb_false_iff in H as [H _].
    now destruct (block_match (String c pre +++ rest)).
  - destruct pre as [|c' pre]; [discriminate|]. inversion Hpre; subst.
    cbn [match_starts_in] in H. apply orb_false_iff in H as [_ H].
    now apply (IH (a +++ b) H b).
Qed.

(** X15. On a target with a single block (a match of the pattern, no match
    starting before it and none after it) and a generated block without
    backslash, the run leaves the file as the text before the block, the
    generated block, and the text after the block; it writes the file
    exactly when the old block differs from the generated one. *)
Theorem sync_single_block (w : world) (pre m post : string)
        (Htpl : has_char "\" (set_content (audio_files (audio_dir w))) = false)
        (Hfile : playlist_file w = pre +++ m +++ post)
        (Hm : block_match (m +++ post) = Some (m, post))
        (Hpre : forall a b, pre = a +++ b -> b <> EmptyString ->
                  block_match (b +++ m +++ post) = None)
        (Hpost : forall a b, post = a +++ b -> block_match b = None) :
  let block := set_content (audio_files (audio_dir w)) in
  exists w' printed,
    sync w = (w', printed, Ok tt)
    /\ playlist_file w' = pre +++ block +++ post
    /\ audio_dir w' = audio_dir w
    /\ (m = block -> w' = w /\ In unchanged_msg printed)
    /\ (m <> block -> writes w' = S (writes w)).
Proof.
  intros block.
  assert (Hmm : matches pattern m) by (now apply block_match_matches in Hm).
  assert (Hsub : re_sub block (playlist_file w) = Ok (pre +++ block +++ post)).
  { unfold re_sub, compile_template.
    destruct (parse_template_literal block _ Htpl (Nat.le_refl _)) as [tpl [-> He]].
    rewrite Hfile, (sub_scan_first_match tpl pre m post Hmm).
    - now rewrite He, (sub_scan_no_block tpl post Hpost).
    - intros a b m' t Ha Hb Heq Hm'.
      pose proof (matches_block_match m' t Hm') as E. rewrite <- Heq in E.
      rewrite (Hpre a b Ha Hb) in E. discriminate. }
  pose proof (sync_run w) as Hrun. cbv zeta in Hrun. fold block in Hrun.
  rewrite Hsub in Hrun.
  destruct (String.eqb_spec (pre +++ block +++ post) (playlist_file w)) as [Heq|Hne].
  - exists w. eexists. split; [exact Hrun|]. split; [now symmetry|].
    split; [reflexivity|]. split.
    + intros _. split; [reflexivity|]. apply in_or_app. right. simpl. tauto.
    + intros Hmb. exfalso. apply Hmb. rewrite Hfile in Heq.
      apply append_inv_r in Heq. now apply append_inv_l in Heq.
  - eexists. eexists. split; [exact Hrun|]. split; [reflexivity|].
    split; [reflexivity|]. split.
    + intros Hmb. exfalso. apply Hne. now rewrite Hfile, Hmb.
    + intros _. reflexivity.
Qed.

Lemma sync_single_block_witness :
  playlist_file sample_world = ("// generated" +++ nl) +++ empty_block +++ nl
  /\ exists w' printed,
       sync sample_world = (w', printed, Ok tt)
       /\ playlist_file w'
          = ("// generated" +++ nl)
            +++ set_content (audio_files (audio_dir sample_world)) +++ nl.
Proof.
  split; [reflexivity|].
  destruct (sync_single_block sample_world ("// generated" +++ nl) empty_block nl)
    as [w' [printed [Hrun [Hfile _]]]].
  - reflexivity.
  - reflexivity.
  - reflexivity.
  - apply match_starts_in_spec. reflexivity.
  - apply no_block_spec. reflexivity.
  - exists w', printed. split; [exact Hrun | exact Hfile].
Defined.

Lemma sync_no_match_no_change_witness :
  has_char "\" (set_content (audio_files (audio_dir sample_world))) = false
  /\ sync {| audio_dir := sample_entries; playlist_file := "export {};"; writes := 0 |}
     = ({| audio_dir := sample_entries; playlist_file := "export {};"; writes := 0 |},
        sync_prints (audio_files sample_entries) ++ [EmptyString; unchanged_msg],
        Ok tt).
Proof.
  split; [reflexivity|].
  apply (sync_no_match_no_change
           {| audio_dir := sample_entries; playlist_file := "export {};"; writes := 0 |}).
  - reflexivity.
  - apply no_block_spec. reflexivity.
Defined.


(** * The synchroniser on files *)

(** ** Runs on files *)

Lemma sync_on_disk_run (w : world) :
  let files := audio_files (audio_dir w) in
  let content := universal_newlines (playlist_file w) in
  sync_on_disk w
  = if utf8_valid (playlist_file w) then
      match re_sub (set_content files) content with
      | Raise e => (w, sync_prints files, Raise e)
      | Ok new_content =>
          if String.eqb new_content content
          then (w, sync_prints files ++ [EmptyString; unchanged_msg], Ok tt)
          else if utf8_valid new_content
          then (with_file w new_content,
                sync_prints files ++ [EmptyString; updated_msg (len files)],
                Ok tt)
          else (with_file w EmptyString, sync_prints files,
                Raise UnicodeEncodeError)
      end
    else (w, sync_prints files, Raise UnicodeDecodeError).
Proof.
  intros files content. unfold sync_on_disk, sync_with, glob, read_text, write_text.
  unfold bind at 1. unfold bind at 1. unfold get_state at 1, ret at 1.
  fold (audio_files (audio_dir w)). fold files.
  unfold bind at 1, print at 1. unfold bind at 1.
  rewrite for_each_print.
  unfold bind at 1, print at 1. unfold bind at 1, print at 1.
  unfold bind at 1, print at 1. unfold bind at 1. unfold bind at 1.
  unfold get_state at 1.
  destruct (utf8_valid (playlist_file w)).
  - unfold ret at 1. unfold bind at 1, lift at 1. fold content.
    destruct (re_sub (set_content files) content) as [new_content|e].
    + destruct (String.eqb new_content content); simpl.
      * unfold sync_prints. simpl. now rewrite <- app_assoc.
      * unfold bind, get_state, put_state, print, lift.
        destruct (utf8_valid new_content); unfold sync_prints, with_file; simpl.
        -- now rewrite <- app_assoc.
        -- reflexivity.
    + unfold sync_prints. simpl. reflexivity.
  - unfold lift. unfold sync_prints. simpl. reflexivity.
Qed.

(** ** Carriage returns *)




Lemma universal_newlines_id (s : string) :
  has_char CR s = false -> universal_newlines s = s.
Proof.
  induction s as [|a s IH]; [reflexivity|]. cbn [has_char universal_newlines].
  intros H. apply orb_false_iff in H as [Ha Hs]. rewrite Ha. f_equal. now apply IH.
Qed.



(** ** Two runs on files *)




(** ** What a run on files can raise and write *)










(** ** The two layers *)

(** X18. On a target that is valid UTF-8 and has no carriage return, and
    when the text that [re.sub] returns can be encoded, the run on files
    is the run of the text layer: same state, same output, same result. *)
Theorem sync_on_disk_agrees_with_sync (w : world)
        (Hvalid : utf8_valid (playlist_file w) = true)
        (Hcr : has_char CR (playlist_file w) = false)
        (Hnew : forall new_content,
                  re_sub (set_content (audio_files (audio_dir w))) (playlist_file w)
                  = Ok new_content ->
                  utf8_valid new_content = true) :
  sync_on_disk w = sync w.
Proof.
  rewrite sync_on_disk_run, sync_run. cbv zeta.
  rewrite Hvalid, (universal_newlines_id _ Hcr).
  destruct (re_sub _ (playlist_file w)) as [new_content|e]; [|reflexivity].
  destruct (String.eqb new_content (playlist_file w)); [reflexivity|].
  now rewrite (Hnew new_content eq_refl).
Qed.

Lemma sync_on_disk_agrees_with_sync_witness :
  utf8_valid (playlist_file sample_world) = true
  /\ has_char CR (playlist_file sample_world) = false
  /\ sync_on_disk sample_world = sync sample_world.
Proof.
  split; [reflexivity|]. split; [reflexivity|].
  apply (sync_on_disk_agrees_with_sync sample_world); [reflexivity | reflexivity |].
  intros new_content H. vm_compute in H. injection H as <-. reflexivity.
Defined.
